(** * car_game: the racing game of [src/app/page.tsx]

    A shallow embedding of the track generator ([generateRandomTrack] and the
    boundary loop of the scene set-up), of the key handlers and of the
    per-frame callback [animate], followed by the properties of the
    specification that concern them.

    Number model.  A JavaScript number is modelled as a real number: arithmetic
    is exact, there is no rounding, no NaN and no Infinity.  [Math.sqrt],
    [Math.sin], [Math.cos], [Math.abs], [Math.min], [Math.max] and [Math.PI]
    are [sqrt], [sin], [cos], [Rabs], [Rmin], [Rmax] and [PI].  An array read
    outside the array ([undefined]) is [None], and a comparison against it is
    false, as in JavaScript.  The integer-valued variables ([gear], loop
    indices) are [Z] and [nat].

    The vector classes come from three.js, which the page imports; the few
    methods that [page.tsx] calls are transcribed in [Module THREE].

    After the definitions and properties of the track and of the player's car
    come those of the rest of the page: the engine speed, the camera rig, the
    AI cars, the walls and the centre line, the check of the uploaded file and
    the telemetry of the HUD.  There [Math.atan2] is [atan2], defined from
    [atan], and [Math.round] is [mathRound]. *)

From Stdlib Require Import Reals Lra Lia ZArith List String Ascii Bool.
Import ListNotations.

Open Scope R_scope.

(** ** three.js: the vector and quaternion methods used by the page *)

Module THREE.

Record Vector2 : Type := mkVector2 { x2 : R; y2 : R }.

Record Vector3 : Type := mkVector3 { x : R; y : R; z : R }.

(** [Euler] with the default order ['XYZ']. *)
Record Euler : Type := mkEuler { ex : R; ey : R; ez : R }.

Record Quaternion : Type := mkQuaternion { qx : R; qy : R; qz : R; qw : R }.

(** [a || 1] on numbers: [0] is falsy. *)
Definition or1 (a : R) : R := if Req_dec_T a 0 then 1 else a.

Module V2.

Definition length (v : Vector2) : R := sqrt (x2 v * x2 v + y2 v * y2 v).

Definition multiplyScalar (v : Vector2) (s : R) : Vector2 :=
  mkVector2 (x2 v * s) (y2 v * s).

(** [divideScalar(scalar) { return this.multiplyScalar(1 / scalar) }] *)
Definition divideScalar (v : Vector2) (s : R) : Vector2 := multiplyScalar v (1 / s).

(** [normalize() { return this.divideScalar(this.length() || 1) }] *)
Definition normalize (v : Vector2) : Vector2 := divideScalar v (or1 (length v)).

End V2.

Definition length (v : Vector3) : R := sqrt (x v * x v + y v * y v + z v * z v).

Definition multiplyScalar (v : Vector3) (s : R) : Vector3 :=
  mkVector3 (x v * s) (y v * s) (z v * s).

Definition divideScalar (v : Vector3) (s : R) : Vector3 := multiplyScalar v (1 / s).

Definition normalize (v : Vector3) : Vector3 := divideScalar v (or1 (length v)).

Definition add (v w : Vector3) : Vector3 :=
  mkVector3 (x v + x w) (y v + y w) (z v + z w).

(** [Quaternion.setFromEuler] for the order ['XYZ']; an [Object3D] keeps its
    [quaternion] equal to this function of its [rotation]. *)
Definition setFromEuler (e : Euler) : Quaternion :=
  let c1 := cos (ex e / 2) in
  let c2 := cos (ey e / 2) in
  let c3 := cos (ez e / 2) in
  let s1 := sin (ex e / 2) in
  let s2 := sin (ey e / 2) in
  let s3 := sin (ez e / 2) in
  mkQuaternion (s1 * c2 * c3 + c1 * s2 * s3)
               (c1 * s2 * c3 - s1 * c2 * s3)
               (c1 * c2 * s3 + s1 * s2 * c3)
               (c1 * c2 * c3 - s1 * s2 * s3).

(** [Vector3.applyQuaternion]: [v + q.w * t + cross(q.xyz, t)] with
    [t = 2 * cross(q.xyz, v)]. *)
Definition applyQuaternion (v : Vector3) (q : Quaternion) : Vector3 :=
  let tx := 2 * (qy q * z v - qz q * y v) in
  let ty := 2 * (qz q * x v - qx q * z v) in
  let tz := 2 * (qx q * y v - qy q * x v) in
  mkVector3 (x v + qw q * tx + qy q * tz - qz q * ty)
            (y v + qw q * ty + qz q * tx - qx q * tz)
            (z v + qw q * tz + qx q * ty - qy q * tx).

End THREE.

(** ** Track generation *)

Record TrackPoint : Type := mkPoint { px : R; pz : R }.

Definition numPoints : nat := 32.
Definition baseRadius : R := 180.

(** The body of the loop of [generateRandomTrack] at index [i]. *)
Definition angleAt (i : nat) : R := (INR i / INR numPoints) * PI * 2.

Definition radiusVariation (angle : R) : R :=
  baseRadius + sin (angle * 2) * 15 + cos (angle * 4) * 8.

Definition trackPointAt (i : nat) : TrackPoint :=
  let angle := angleAt i in
  mkPoint (cos angle * radiusVariation angle) (sin angle * radiusVariation angle).

(** [for (let i = 0; i < numPoints; i++) trackPoints.push(...)]: [fuel] counts
    the iterations left. *)
Fixpoint generateLoop (fuel i : nat) (trackPoints : list TrackPoint) : list TrackPoint :=
  match fuel with
  | O => trackPoints
  | S fuel' => generateLoop fuel' (S i) (trackPoints ++ [trackPointAt i])
  end.

Definition generateRandomTrack : list TrackPoint := generateLoop numPoints 0 [].

Definition distanceFromOrigin (p : TrackPoint) : R := sqrt (px p * px p + pz p * pz p).

(** ** Track boundaries (the first loop of the scene set-up) *)

Definition trackWidth : R := 60.

(** [arr[i]] for an index inside the array; the loops below never read
    outside it. *)
Definition at_ (arr : list TrackPoint) (i : nat) : TrackPoint :=
  nth i arr (mkPoint 0 0).

(** [k % len] for an integer [k]: the remainder has the sign of [k]. *)
Definition wrapIndex (k : Z) (len : nat) : nat := Z.to_nat (Z.rem k (Z.of_nat len)).

Definition perpendicularAt (trackPoints : list TrackPoint) (i : nat) : THREE.Vector2 :=
  let len := List.length trackPoints in
  let nextPoint := at_ trackPoints (wrapIndex (Z.of_nat i + 1) len) in
  let prevPoint := at_ trackPoints (wrapIndex (Z.of_nat i - 1 + Z.of_nat len) len) in
  let direction :=
    THREE.V2.normalize
      (THREE.mkVector2 (px nextPoint - px prevPoint) (pz nextPoint - pz prevPoint)) in
  THREE.mkVector2 (- THREE.y2 direction) (THREE.x2 direction).

Definition outerPointAt (trackPoints : list TrackPoint) (i : nat) : TrackPoint :=
  let point := at_ trackPoints i in
  let perpendicular := perpendicularAt trackPoints i in
  mkPoint (px point + THREE.x2 perpendicular * (trackWidth / 2))
          (pz point + THREE.y2 perpendicular * (trackWidth / 2)).

Definition innerPointAt (trackPoints : list TrackPoint) (i : nat) : TrackPoint :=
  let point := at_ trackPoints i in
  let perpendicular := perpendicularAt trackPoints i in
  mkPoint (px point - THREE.x2 perpendicular * (trackWidth / 2))
          (pz point - THREE.y2 perpendicular * (trackWidth / 2)).

Definition outerPoints (trackPoints : list TrackPoint) : list TrackPoint :=
  map (outerPointAt trackPoints) (seq 0 (List.length trackPoints)).

Definition innerPoints (trackPoints : list TrackPoint) : list TrackPoint :=
  map (innerPointAt trackPoints) (seq 0 (List.length trackPoints)).

Definition distance (p q : TrackPoint) : R :=
  sqrt ((px p - px q) * (px p - px q) + (pz p - pz q) * (pz p - pz q)).

(** ** The player's car and the keyboard *)

(** [keys]: the object filled by the key handlers; a code never written reads
    as [undefined], which is falsy. *)
Definition Keys : Type := string -> bool.

Definition noKeys : Keys := fun _ => false.

Definition setKey (keys : Keys) (code : string) (b : bool) : Keys :=
  fun c => if String.eqb c code then b else keys c.

(** [toLowerCase] on the codes of [KeyboardEvent], which are ASCII. *)
Definition lowerAscii (c : ascii) : ascii :=
  let n := nat_of_ascii c in
  if ((65 <=? n) && (n <=? 90))%nat then ascii_of_nat (n + 32) else c.

Fixpoint toLowerCase (s : string) : string :=
  match s with
  | EmptyString => EmptyString
  | String c s' => String (lowerAscii c) (toLowerCase s')
  end.

Inductive CameraMode : Type := TPP | FPP.

(** The variables of the effect's closure that [animate] and [handleKeyUp]
    read and write, with the pose of [currentCarRef].  [acceleration],
    [steering] and [isHandbraking] are reset at the start of every frame and
    are local to [animate] here.  [rpm] is only ever written (it feeds the
    HUD) and is left out, as are the AI cars, the camera and the renderer. *)
Record Car : Type := mkCar {
  position : THREE.Vector3;
  rotation : THREE.Euler;
  velocity : THREE.Vector3;
  lateralVelocity : THREE.Vector3;
  speed : R;
  gear : Z;
  currentCameraMode : CameraMode;
  driftFactor : R;
  handbrakeIntensity : R
}.

(** The quaternion of the mesh follows its Euler rotation. *)
Definition quaternion (car : Car) : THREE.Quaternion := THREE.setFromEuler (rotation car).

Definition maxSpeedByGear : list R := [0; 60; 100; 150; 200; 280; 350].

(** [arr[gear]]; [None] is [undefined]. *)
Definition index (arr : list R) (gear : Z) : option R :=
  if (gear <? 0)%Z then None else nth_error arr (Z.to_nat gear).

Definition Rgtb (a b : R) : bool := if Rgt_dec a b then true else false.
Definition Rltb (a b : R) : bool := if Rlt_dec a b then true else false.
Definition Reqb (a b : R) : bool := if Req_dec_T a b then true else false.

(** [a > m] and [a > m * k], [a < m * k] where [m] may be [undefined]. *)
Definition gtU (a : R) (m : option R) : bool :=
  match m with Some m => Rgtb a m | None => false end.

Definition ltU (a : R) (m : option R) : bool :=
  match m with Some m => Rltb a m | None => false end.

Definition scaleU (m : option R) (k : R) : option R :=
  match m with Some m => Some (m * k) | None => None end.

(** Lines 362-371: the controls read from [keys], one definition for each
    variable; the assignments to different variables do not interact. *)
Definition inputThrottle (keys : Keys) : R :=
  let acceleration := 0 in
  let acceleration := if keys "keyw"%string || keys "arrowup"%string then 1 else acceleration in
  let acceleration := if keys "keys"%string || keys "arrowdown"%string then -0.5 else acceleration in
  acceleration.

Definition inputBoost (keys : Keys) : bool :=
  keys "shiftleft"%string || keys "shiftright"%string.

(** [acceleration] after line 371. *)
Definition inputAcceleration (keys : Keys) : R :=
  let acceleration := inputThrottle keys in
  let acceleration := if inputBoost keys then acceleration * 1.5 else acceleration in
  acceleration.

Definition inputSteering (keys : Keys) : R :=
  let steering := 0 in
  let steering := if keys "keya"%string || keys "arrowleft"%string then 1 else steering in
  let steering := if keys "keyd"%string || keys "arrowright"%string then -1 else steering in
  steering.

Definition inputHandbraking (keys : Keys) : bool :=
  if keys "space"%string then true else false.

Definition engineForce (acceleration : R) (gear : Z) : R :=
  acceleration * (30 + IZR gear * 10).

Definition toggleCamera (m : CameraMode) : CameraMode :=
  match m with TPP => FPP | FPP => TPP end.

(** One call of [animate] with [clock.getDelta() = deltaTime].  The swap of the
    car mesh at the top of the callback copies position and rotation to the
    new mesh and so leaves these variables alone; [gearRatios] and [tireGrip]
    are computed and never used. *)
Definition animate (car : Car) (keys : Keys) (deltaTime : R) : Car :=
  let acceleration := inputAcceleration keys in
  let steering := inputSteering keys in
  let isHandbraking := inputHandbraking keys in
  let currentCameraMode :=
    if keys "keyc"%string then toggleCamera (currentCameraMode car) else currentCameraMode car in
  let handbrakeIntensity :=
    if isHandbraking
    then Rmin (handbrakeIntensity car + deltaTime * 3) 1
    else Rmax (handbrakeIntensity car - deltaTime * 4) 0 in
  let currentMaxSpeed := index maxSpeedByGear (gear car) in
  let engineForce := engineForce acceleration (gear car) in
  let lateralGrip := 0.7 - handbrakeIntensity * 0.6 in
  let velocity :=
    if Reqb acceleration 0 then velocity car
    else
      let forwardDirection := THREE.applyQuaternion (THREE.mkVector3 0 0 1) (quaternion car) in
      let forceVector := THREE.multiplyScalar forwardDirection (engineForce * deltaTime) in
      THREE.add (velocity car) forceVector in
  let velocity := THREE.multiplyScalar velocity 0.98 in
  let velocity :=
    match currentMaxSpeed with
    | Some m =>
        if Rgtb (THREE.length velocity) m
        then THREE.multiplyScalar (THREE.normalize velocity) m
        else velocity
    | None => velocity
    end in
  let '(driftFactor, rotation, lateralVelocity) :=
    if Rgtb (Rabs (THREE.length velocity)) 0.1 && negb (Reqb steering 0) then
      let steerAmount :=
        steering * deltaTime * Rmin (Rabs (THREE.length velocity) / 30) 1 in
      let speedFactor := Rmin (THREE.length velocity / 50) 1 in
      let driftFactor := Rabs steering * speedFactor * (1 + handbrakeIntensity * 2) in
      let rotation :=
        THREE.mkEuler (THREE.ex (rotation car))
                      (THREE.ey (rotation car) + steerAmount * (1 + handbrakeIntensity * 0.8))
                      (THREE.ez (rotation car)) in
      let lateralVelocity :=
        if Rgtb driftFactor 0.2 || Rgtb handbrakeIntensity 0.3 then
          let lateralDirection :=
            THREE.applyQuaternion (THREE.mkVector3 1 0 0) (THREE.setFromEuler rotation) in
          let lateralForce :=
            THREE.multiplyScalar lateralDirection
              (steering * driftFactor * THREE.length velocity * deltaTime
               * (0.5 + handbrakeIntensity * 0.7)) in
          THREE.add (lateralVelocity car) lateralForce
        else lateralVelocity car in
      (driftFactor, rotation, lateralVelocity)
    else (driftFactor car, rotation car, lateralVelocity car) in
  let lateralVelocity := THREE.multiplyScalar lateralVelocity lateralGrip in
  let totalMovement := THREE.add velocity lateralVelocity in
  let position := THREE.add (position car) (THREE.multiplyScalar totalMovement deltaTime) in
  let '(velocity, lateralVelocity) :=
    if Rgtb handbrakeIntensity 0 then
      let brakingForce := 0.85 + handbrakeIntensity * 0.1 in
      (THREE.multiplyScalar velocity brakingForce,
       THREE.multiplyScalar lateralVelocity (0.5 + handbrakeIntensity * 0.3))
    else (velocity, lateralVelocity) in
  let speed := THREE.length velocity * 2.5 in
  let gear :=
    if negb (keys "keyu"%string) && gtU speed (scaleU currentMaxSpeed 0.9) && (gear car <? 6)%Z
    then (gear car + 1)%Z
    else if negb (keys "keyu"%string) && ltU speed (scaleU currentMaxSpeed 0.4) && (1 <? gear car)%Z
    then (gear car - 1)%Z
    else gear car in
  mkCar position rotation velocity lateralVelocity speed gear currentCameraMode
        driftFactor handbrakeIntensity.

(** [handleKeyUp], on the car: the gear key cycles the gear. *)
Definition handleKeyUpCar (car : Car) (code : string) : Car :=
  if String.eqb (toLowerCase code) "keyu"
  then mkCar (position car) (rotation car) (velocity car) (lateralVelocity car) (speed car)
             (if (6 <=? gear car)%Z then 1%Z else (gear car + 1)%Z)
             (currentCameraMode car) (driftFactor car) (handbrakeIntensity car)
  else car.

(** The state of a session: the key table and the car. *)
Record World : Type := mkWorld { keys : Keys; car : Car }.

Inductive Event : Type :=
| KeyDown (code : string)
| KeyUp (code : string)
| Frame (deltaTime : R).

Definition handleKeyDown (w : World) (code : string) : World :=
  mkWorld (setKey (keys w) (toLowerCase code) true) (car w).

Definition handleKeyUp (w : World) (code : string) : World :=
  mkWorld (setKey (keys w) (toLowerCase code) false) (handleKeyUpCar (car w) code).

Definition step (w : World) (e : Event) : World :=
  match e with
  | KeyDown code => handleKeyDown w code
  | KeyUp code => handleKeyUp w code
  | Frame deltaTime => mkWorld (keys w) (animate (car w) (keys w) deltaTime)
  end.

Definition run (w : World) (events : list Event) : World := fold_left step events w.

(** The car as the effect creates it: on the first track point, at rest, in
    first gear. *)
Definition initialCar : Car :=
  let p0 := at_ generateRandomTrack 0 in
  mkCar (THREE.mkVector3 (px p0) 0.5 (pz p0)) (THREE.mkEuler 0 0 0)
        (THREE.mkVector3 0 0 0) (THREE.mkVector3 0 0 0) 0 1%Z TPP 0 0.

Definition initialWorld : World := mkWorld noKeys initialCar.

(** Every frame of a run has a non-negative [deltaTime]. *)
Definition nonNegativeFrames (events : list Event) : Prop :=
  Forall (fun e => match e with Frame dt => 0 <= dt | _ => True end) events.

(** [n] frames of [animate] with the same keys and the same [deltaTime]. *)
Fixpoint frames (n : nat) (car : Car) (keys : Keys) (deltaTime : R) : Car :=
  match n with
  | O => car
  | S n' => animate (frames n' car keys deltaTime) keys deltaTime
  end.

(** ** Intermediate values of [animate], named for the statements below *)

(** [handbrakeIntensity] after lines 377-381. *)
Definition handbrakeAfter (car : Car) (keys : Keys) (deltaTime : R) : R :=
  if inputHandbraking keys
  then Rmin (handbrakeIntensity car + deltaTime * 3) 1
  else Rmax (handbrakeIntensity car - deltaTime * 4) 0.

(** [velocity] after the engine force, the drag and the speed cap (lines
    391-403). *)
Definition drivenVelocity (car : Car) (keys : Keys) (deltaTime : R) : THREE.Vector3 :=
  let acceleration := inputAcceleration keys in
  let velocity :=
    if Reqb acceleration 0 then velocity car
    else
      THREE.add (velocity car)
        (THREE.multiplyScalar
           (THREE.applyQuaternion (THREE.mkVector3 0 0 1) (quaternion car))
           (engineForce acceleration (gear car) * deltaTime)) in
  let velocity := THREE.multiplyScalar velocity 0.98 in
  match index maxSpeedByGear (gear car) with
  | Some m =>
      if Rgtb (THREE.length velocity) m
      then THREE.multiplyScalar (THREE.normalize velocity) m
      else velocity
  | None => velocity
  end.

(** The condition of the steering block (line 405). *)
Definition steers (car : Car) (keys : Keys) (deltaTime : R) : bool :=
  Rgtb (Rabs (THREE.length (drivenVelocity car keys deltaTime))) 0.1
  && negb (Reqb (inputSteering keys) 0).

(** [driftFactor] as line 410 computes it. *)
Definition derivedDriftFactor (car : Car) (keys : Keys) (deltaTime : R) : R :=
  Rabs (inputSteering keys)
  * Rmin (THREE.length (drivenVelocity car keys deltaTime) / 50) 1
  * (1 + handbrakeAfter car keys deltaTime * 2).

(** [rotation] after line 412. *)
Definition rotationAfter (car : Car) (keys : Keys) (deltaTime : R) : THREE.Euler :=
  if steers car keys deltaTime
  then THREE.mkEuler
         (THREE.ex (rotation car))
         (THREE.ey (rotation car)
          + inputSteering keys * deltaTime
            * Rmin (Rabs (THREE.length (drivenVelocity car keys deltaTime)) / 30) 1
            * (1 + handbrakeAfter car keys deltaTime * 0.8))
         (THREE.ez (rotation car))
  else rotation car.

(** [lateralVelocity] after the steering block and the lateral grip (lines
    415-426). *)
Definition slidLateralVelocity (car : Car) (keys : Keys) (deltaTime : R) : THREE.Vector3 :=
  let h := handbrakeAfter car keys deltaTime in
  let d := derivedDriftFactor car keys deltaTime in
  let lateralVelocity :=
    if steers car keys deltaTime && (Rgtb d 0.2 || Rgtb h 0.3)
    then THREE.add (lateralVelocity car)
           (THREE.multiplyScalar
              (THREE.applyQuaternion (THREE.mkVector3 1 0 0)
                 (THREE.setFromEuler (rotationAfter car keys deltaTime)))
              (inputSteering keys * d * THREE.length (drivenVelocity car keys deltaTime)
               * deltaTime * (0.5 + h * 0.7)))
    else lateralVelocity car in
  THREE.multiplyScalar lateralVelocity (0.7 - h * 0.6).

Definition withDriftFactor (car : Car) (d : R) : Car :=
  mkCar (position car) (rotation car) (velocity car) (lateralVelocity car) (speed car)
        (gear car) (currentCameraMode car) d (handbrakeIntensity car).

(** ** Invariants of the reachable states *)

Definition inRange (c : Car) : Prop :=
  (1 <= gear c <= 6)%Z /\ 0 <= handbrakeIntensity c <= 1.

(** The car moves in the plane [y = 0.5] and is only ever turned about the
    vertical axis. *)
Definition planar (c : Car) : Prop :=
  THREE.y (velocity c) = 0
  /\ THREE.y (lateralVelocity c) = 0
  /\ THREE.y (position c) = 0.5
  /\ THREE.ex (rotation c) = 0
  /\ THREE.ez (rotation c) = 0.

(** The key table with the steer-left control released. *)
Definition releaseLeft (keys : Keys) : Keys :=
  setKey (setKey keys "keya" false) "arrowleft" false.

(** ** Driving straight ahead *)

(** [maxSpeedByGear[g]] for a gear of the table. *)
Definition maxSpeedOf (g : Z) : R :=
  match index maxSpeedByGear g with Some m => m | None => 0 end.

(** A car that heads along [+z], moves along [+z] at [v], does not slide and
    has its handbrake released. *)
Definition straight (c : Car) (v : R) : Prop :=
  rotation c = THREE.mkEuler 0 0 0
  /\ velocity c = THREE.mkVector3 0 0 v
  /\ lateralVelocity c = THREE.mkVector3 0 0 0
  /\ handbrakeIntensity c = 0
  /\ speed c = v * 2.5
  /\ 0 <= v
  /\ (1 <= gear c <= 6)%Z.

(** Throttle held, no boost, no brake, no steering, no handbrake. *)
Definition fullThrottle (keys : Keys) : Prop :=
  inputAcceleration keys = 1 /\ inputSteering keys = 0 /\ inputHandbraking keys = false.

(** What [animate] makes of the velocity [v] of such a car in gear [g]. *)
Definition straightVelocity (dt v : R) (g : Z) : R :=
  Rmin ((v + (30 + IZR g * 10) * dt) * 0.98) (maxSpeedOf g).

(** The run of claim C3 never leaves these states: the velocity is below the
    cap of the gear and below the value at which drag balances the engine, and
    a gear above the first was entered fast enough not to shift down again. *)
Definition accelerating (dt : R) (c : Car) (v : R) : Prop :=
  straight c v
  /\ v <= maxSpeedOf (gear c)
  /\ v <= 49 * ((30 + IZR (gear c) * 10) * dt)
  /\ (gear c = 1%Z \/ maxSpeedOf (gear c) * 0.4 <= v * 2.5).

Definition throttleKeys : Keys := setKey noKeys "keyw" true.

(** ** The engine speed, and frames in sequence *)

(** [rpm] after lines 438-446.  [animate] overwrites it on every frame, so it
    is a function of the car before the frame.  [None] stands for a value that
    is not a number: [speed / undefined], or [0 / 0] in the gear-0 slot of the
    table; [speed / 0] with [speed > 0] is [Infinity], which [Math.min] cuts
    to 7000 ([speed] is a length times 2.5 and never negative). *)
Definition rpmAfter (car : Car) (keys : Keys) (deltaTime : R) : option R :=
  let currentMaxSpeed := index maxSpeedByGear (gear car) in
  let speed := speed (animate car keys deltaTime) in
  let rpm :=
    match currentMaxSpeed with
    | Some m =>
        if Reqb m 0
        then (if Reqb speed 0 then None else Some 7000)
        else Some (Rmin (800 + speed / m * 6000) 7000)
    | None => None
    end in
  if negb (keys "keyu"%string) && gtU speed (scaleU currentMaxSpeed 0.9) && (gear car <? 6)%Z
  then Some 2500
  else if negb (keys "keyu"%string) && ltU speed (scaleU currentMaxSpeed 0.4) && (1 <? gear car)%Z
  then Some 4500
  else rpm.

(** Successive frames, each with the key table it finds and its [deltaTime]. *)
Definition drive (car : Car) (inputs : list (Keys * R)) : Car :=
  fold_left (fun c i => animate c (fst i) (snd i)) inputs car.

(** The time the frames of [inputs] take together. *)
Definition elapsed (inputs : list (Keys * R)) : R :=
  fold_right (fun i t => snd i + t) 0 inputs.

(** The key table with the throttle control released. *)
Definition releaseThrottle (keys : Keys) : Keys :=
  setKey (setKey keys "keyw" false) "arrowup" false.

(** Events that do not name the key [code], in any casing. *)
Definition leavesKey (code : string) (e : Event) : Prop :=
  match e with
  | KeyDown c | KeyUp c => toLowerCase c <> toLowerCase code
  | Frame _ => True
  end.

(** ** The camera rig (lines 308-309 and 458-470) *)

Definition tppCamera : THREE.Vector3 := THREE.mkVector3 0 8 (-15).
Definition fppCamera : THREE.Vector3 := THREE.mkVector3 0 1.5 2.

(** What the frame gives the camera: its position and the point handed to
    [camera.lookAt]. *)
Record CameraPlacement : Type := mkCameraPlacement {
  cameraPosition : THREE.Vector3;
  lookTarget : THREE.Vector3
}.

Definition placeCamera (car : Car) : CameraPlacement :=
  match currentCameraMode car with
  | TPP =>
      let cameraOffset := THREE.applyQuaternion tppCamera (quaternion car) in
      mkCameraPlacement (THREE.add (position car) cameraOffset) (position car)
  | FPP =>
      let cameraOffset := THREE.applyQuaternion fppCamera (quaternion car) in
      let lookTarget :=
        THREE.add (position car)
                  (THREE.applyQuaternion (THREE.mkVector3 0 0 10) (quaternion car)) in
      mkCameraPlacement (THREE.add (position car) cameraOffset) lookTarget
  end.

(** [Vector3.distanceTo]. *)
Definition distanceTo (v w : THREE.Vector3) : R :=
  let dx := THREE.x v - THREE.x w in
  let dy := THREE.y v - THREE.y w in
  let dz := THREE.z v - THREE.z w in
  sqrt (dx * dx + dy * dy + dz * dz).

(** A quaternion of norm 1. *)
Definition unitQuaternion (q : THREE.Quaternion) : Prop :=
  THREE.qx q * THREE.qx q + THREE.qy q * THREE.qy q
  + THREE.qz q * THREE.qz q + THREE.qw q * THREE.qw q = 1.

(** ** The AI cars (lines 266-285 and 448-456) *)

(** [Math.atan2(y, x)] on real numbers (there is no signed zero here). *)
Definition atan2 (y x : R) : R :=
  if Rlt_dec 0 x then atan (y / x)
  else if Rlt_dec x 0 then (if Rle_dec 0 y then atan (y / x) + PI else atan (y / x) - PI)
  else if Rlt_dec 0 y then PI / 2
  else if Rlt_dec y 0 then - (PI / 2)
  else 0.

Record AICar : Type := mkAICar {
  aiPosition : THREE.Vector3;
  aiRotation : THREE.Euler
}.

Record AICarStart : Type := mkAICarStart { startAngle : R; startRadius : R }.

Definition aiCarPositions : list AICarStart :=
  [mkAICarStart 0.5 100; mkAICarStart 1.0 105; mkAICarStart 1.5 95; mkAICarStart 2.0 110].

(** The body of [aiCarPositions.forEach] that creates a car. *)
Definition newAICar (pos : AICarStart) : AICar :=
  mkAICar
    (THREE.mkVector3 (cos (startAngle pos) * startRadius pos) 0.5
                     (sin (startAngle pos) * startRadius pos))
    (THREE.mkEuler 0 (startAngle pos + PI / 2) 0).

Definition aiCars : list AICar := map newAICar aiCarPositions.

(** The body of [aiCars.forEach] in [animate]. *)
Definition moveAICar (index : nat) (car : AICar) (deltaTime : R) : AICar :=
  let currentAngle := atan2 (THREE.z (aiPosition car)) (THREE.x (aiPosition car)) in
  let newAngle := currentAngle + (0.4 + INR index * 0.1) * deltaTime in
  let radius := 100 + (if (index mod 2 =? 0)%nat then -8 else 8) in
  mkAICar
    (THREE.mkVector3 (cos newAngle * radius) (THREE.y (aiPosition car)) (sin newAngle * radius))
    (THREE.mkEuler (THREE.ex (aiRotation car)) (newAngle + PI / 2) (THREE.ez (aiRotation car))).

(** [cars.forEach((car, index) => ...)], from the index [index] on. *)
Fixpoint forEachFrom (index : nat) (cars : list AICar) (deltaTime : R) : list AICar :=
  match cars with
  | [] => []
  | car :: rest => moveAICar index car deltaTime :: forEachFrom (S index) rest deltaTime
  end.

Definition moveAICars (cars : list AICar) (deltaTime : R) : list AICar :=
  forEachFrom 0 cars deltaTime.

(** The AI cars after frames of the given lengths. *)
Definition aiFrames (cars : list AICar) (deltaTimes : list R) : list AICar :=
  fold_left moveAICars deltaTimes cars.

(** The radius and the angular rate the frame uses for the car [index]. *)
Definition aiLane (index : nat) : R := if Nat.even index then 92 else 108.

Definition aiRate (index : nat) : R := 0.4 + INR index * 0.1.

Definition total (deltaTimes : list R) : R := fold_right Rplus 0 deltaTimes.

(** Distance from the vertical axis through the origin. *)
Definition distanceFromAxis (p : THREE.Vector3) : R :=
  sqrt (THREE.x p * THREE.x p + THREE.z p * THREE.z p).

(** ** Walls and centre line (the second loop of the scene set-up, lines 176-264) *)

(** A wall: the length of its box along its own [x] axis, the position of its
    centre, and [rotation.y]. *)
Record Wall : Type := mkWall {
  wallLength : R;
  wallPosition : THREE.Vector3;
  wallRotationY : R
}.

(** Lines 216-228 for the outer wall and 233-244 for the inner one. *)
Definition wallBetween (current next : TrackPoint) : Wall :=
  let segmentLength := sqrt ((px next - px current) ^ 2 + (pz next - pz current) ^ 2) in
  let angle := atan2 (pz next - pz current) (px next - px current) in
  mkWall segmentLength
         (THREE.mkVector3 ((px current + px next) / 2) 2 ((pz current + pz next) / 2))
         angle.

Definition outerWallAt (outerPoints : list TrackPoint) (i : nat) : Wall :=
  wallBetween (at_ outerPoints i)
              (at_ outerPoints (wrapIndex (Z.of_nat i + 1) (List.length outerPoints))).

Definition innerWallAt (innerPoints : list TrackPoint) (i : nat) : Wall :=
  wallBetween (at_ innerPoints i)
              (at_ innerPoints (wrapIndex (Z.of_nat i + 1) (List.length innerPoints))).

(** Lines 249-252: the middle between a point of the outer boundary and a
    point of the inner one. *)
Definition middle (outer inner : TrackPoint) : TrackPoint :=
  mkPoint ((px outer + px inner) / 2) ((pz outer + pz inner) / 2).

(** Lines 177-180 and 254-263: the dashes of the centre line, one for every
    fourth segment, each with its two end points. *)
Definition centerLine (outerPoints innerPoints : list TrackPoint)
  : list (TrackPoint * TrackPoint) :=
  flat_map
    (fun i =>
       let currentOuter := at_ outerPoints i in
       let nextOuter :=
         at_ outerPoints (wrapIndex (Z.of_nat i + 1) (List.length outerPoints)) in
       let currentInner := at_ innerPoints i in
       let nextInner :=
         at_ innerPoints (wrapIndex (Z.of_nat i + 1) (List.length innerPoints)) in
       if (i mod 4 =? 0)%nat
       then [(middle currentOuter currentInner, middle nextOuter nextInner)]
       else [])
    (seq 0 (List.length outerPoints)).

(** The image of a point through the origin. *)
Definition opposite (p : TrackPoint) : TrackPoint := mkPoint (- px p) (- pz p).

(** Where a point given in the frame of an object that is turned about the
    vertical axis lies in the scene ([Object3D.localToWorld] without scale and
    without parent). *)
Definition localToWorld (position : THREE.Vector3) (rotationY : R) (local : THREE.Vector3)
  : THREE.Vector3 :=
  THREE.add position
            (THREE.applyQuaternion local (THREE.setFromEuler (THREE.mkEuler 0 rotationY 0))).

(** The two ends of the box of a wall, on its long axis. *)
Definition wallEnds (w : Wall) : THREE.Vector3 * THREE.Vector3 :=
  (localToWorld (wallPosition w) (wallRotationY w) (THREE.mkVector3 (wallLength w / 2) 0 0),
   localToWorld (wallPosition w) (wallRotationY w) (THREE.mkVector3 (- (wallLength w / 2)) 0 0)).

(** ** The file chosen for the car model (lines 35-40) *)

(** [s.endsWith(suffix)]. *)
Definition endsWith (s suffix : string) : bool :=
  let n := String.length s in
  let m := String.length suffix in
  (m <=? n)%nat && String.eqb (substring (n - m) m s) suffix.

(** The test at the top of [handleFileUpload], negated: [None] is no file
    chosen, [Some name] a file of that name.  A name is a string of bytes and
    [toLowerCase] acts on its ASCII letters. *)
Definition acceptsFile (file : option string) : bool :=
  match file with
  | None => false
  | Some name => endsWith (toLowerCase name) ".glb"
  end.

(** ** The telemetry handed to the HUD (lines 472-481) and the needle (line 610) *)

(** [Math.round]: the nearest integer, a half goes up. *)
Definition mathRound (a : R) : Z := Int_part (a + 0.5).

Module HUD.

Record GameState : Type := mkGameState {
  speed : Z;
  gear : Z;
  rpm : option Z;
  isAccelerating : bool;
  isBraking : bool;
  isBoosting : bool;
  cameraMode : CameraMode
}.

End HUD.

(** The state that [setGameState] receives at the end of the frame; the rounded
    [rpm] is [None] where [rpm] is not a number. *)
Definition telemetry (car : Car) (keys : Keys) (deltaTime : R) : HUD.GameState :=
  let after := animate car keys deltaTime in
  let acceleration := inputAcceleration keys in
  HUD.mkGameState
    (mathRound (speed after))
    (gear after)
    (option_map mathRound (rpmAfter car keys deltaTime))
    (Rgtb acceleration 0)
    (Rltb acceleration 0 || Rgtb (handbrakeIntensity after) 0)
    (inputBoost keys && Rgtb acceleration 0)
    (currentCameraMode after).

(** The rotation of the needle of the speedometer, in degrees. *)
Definition needleAngle (shown : Z) : R := Rmin (IZR shown / 350 * 270 - 135) 135.

(** ** Tactics *)

Ltac eval_wrap :=
  repeat match goal with
  | |- context [wrapIndex ?a ?b] =>
      let v := eval vm_compute in (wrapIndex a b) in
      change (wrapIndex a b) with v
  end.

(** [animate] binds two tuples by a conditional; deciding the two conditions
    exposes the record it builds. *)
Ltac split_tuples :=
  repeat match goal with
  | |- context [match (if ?c then _ else _) with pair _ _ => _ end] => destruct c eqn:?
  end.

Ltac eval_keys :=
  cbv [inputAcceleration inputThrottle inputBoost inputSteering inputHandbraking
       setKey noKeys String.eqb Ascii.eqb Bool.eqb orb].

(** * Properties *)

(** ** Track generation *)

Lemma generateLoop_spec (fuel i : nat) (acc : list TrackPoint) :
  generateLoop fuel i acc = acc ++ map trackPointAt (seq i fuel).
Proof.
  revert i acc; induction fuel as [|fuel IH]; intros i acc; simpl.
  - now rewrite app_nil_r.
  - rewrite IH, <- app_assoc. reflexivity.
Qed.

Lemma generateRandomTrack_map :
  generateRandomTrack = map trackPointAt (seq 0 numPoints).
Proof. unfold generateRandomTrack. now rewrite generateLoop_spec. Qed.

Lemma generateRandomTrack_length : List.length generateRandomTrack = numPoints.
Proof. rewrite generateRandomTrack_map, length_map, length_seq. reflexivity. Qed.

Lemma generateRandomTrack_at (i : nat) :
  (i < numPoints)%nat -> at_ generateRandomTrack i = trackPointAt i.
Proof.
  intros Hi. unfold at_. rewrite generateRandomTrack_map.
  rewrite nth_indep with (d' := trackPointAt 0) by (now rewrite length_map, length_seq).
  rewrite map_nth, seq_nth by exact Hi. reflexivity.
Qed.

Lemma radiusVariation_bounds (angle : R) :
  180 - (15 + 8) <= radiusVariation angle <= 180 + (15 + 8).
Proof.
  unfold radiusVariation, baseRadius.
  pose proof (SIN_bound (angle * 2)). pose proof (COS_bound (angle * 4)). lra.
Qed.

Lemma sqrt_sum_squares_scaled (c s r : R) :
  c * c + s * s = 1 -> 0 <= r -> sqrt (c * r * (c * r) + s * r * (s * r)) = r.
Proof.
  intros H Hr.
  replace (c * r * (c * r) + s * r * (s * r)) with (r * r) by nra.
  now apply sqrt_square.
Qed.

Lemma cos2_sin2 (a : R) : cos a * cos a + sin a * sin a = 1.
Proof. pose proof (sin2_cos2 a) as H. unfold Rsqr in H. lra. Qed.

Lemma distanceFromOrigin_trackPointAt (i : nat) :
  distanceFromOrigin (trackPointAt i) = radiusVariation (angleAt i).
Proof.
  unfold distanceFromOrigin, trackPointAt; simpl.
  apply sqrt_sum_squares_scaled.
  - apply cos2_sin2.
  - pose proof (radiusVariation_bounds (angleAt i)). lra.
Qed.

(** C5: the generated centerline has exactly 32 points, point [i] is
    [(cos(angle)*radius, sin(angle)*radius)] with [angle = (i/32)*2*PI] and
    [radius = 180 + 15*sin(2*angle) + 8*cos(4*angle)], and every point lies at
    a distance from the origin between [180 - 23] and [180 + 23]. *)
Theorem C5_track_points_in_annulus :
  List.length generateRandomTrack = 32%nat
  /\ generateRandomTrack = map trackPointAt (seq 0 32)
  /\ (forall i : nat,
        trackPointAt i
        = mkPoint (cos (INR i / 32 * PI * 2)
                   * (180 + sin (INR i / 32 * PI * 2 * 2) * 15 + cos (INR i / 32 * PI * 2 * 4) * 8))
                  (sin (INR i / 32 * PI * 2)
                   * (180 + sin (INR i / 32 * PI * 2 * 2) * 15 + cos (INR i / 32 * PI * 2 * 4) * 8)))
  /\ Forall (fun p => 180 - 23 <= distanceFromOrigin p <= 180 + 23) generateRandomTrack.
Proof.
  split; [exact generateRandomTrack_length|].
  split; [exact generateRandomTrack_map|].
  split.
  - intros i. unfold trackPointAt, radiusVariation, angleAt, baseRadius, numPoints.
    replace (INR 32) with 32 by (rewrite INR_IZR_INZ; reflexivity). reflexivity.
  - rewrite generateRandomTrack_map. apply Forall_forall. intros p Hp.
    apply in_map_iff in Hp. destruct Hp as [i [<- _]].
    rewrite distanceFromOrigin_trackPointAt.
    pose proof (radiusVariation_bounds (angleAt i)). lra.
Qed.

(** ** Track boundaries *)

Lemma sin_PI8_pos : 0 < sin (PI / 8).
Proof. pose proof PI_RGT_0. apply sin_gt_0; lra. Qed.

(** Two track points whose angles differ by something that is not a multiple
    of [PI] are different points. *)
Lemma trackPointAt_apart (a b : nat) :
  sin (angleAt a - angleAt b) <> 0 ->
  px (trackPointAt a) - px (trackPointAt b) = 0 ->
  pz (trackPointAt a) - pz (trackPointAt b) = 0 -> False.
Proof.
  unfold trackPointAt; simpl. intros Hsin Hx Hz. apply Hsin.
  pose proof (radiusVariation_bounds (angleAt a)) as Ha.
  pose proof (radiusVariation_bounds (angleAt b)) as Hb.
  set (ra := radiusVariation (angleAt a)) in *.
  set (rb := radiusVariation (angleAt b)) in *.
  rewrite sin_minus.
  assert (Hprod : (sin (angleAt a) * cos (angleAt b) - cos (angleAt a) * sin (angleAt b))
                  * (ra * rb) = 0).
  { replace ((sin (angleAt a) * cos (angleAt b) - cos (angleAt a) * sin (angleAt b)) * (ra * rb))
      with ((sin (angleAt a) * ra) * (cos (angleAt b) * rb)
            - (cos (angleAt a) * ra) * (sin (angleAt b) * rb)) by ring.
    replace (sin (angleAt a) * ra) with (sin (angleAt b) * rb) by lra.
    replace (cos (angleAt a) * ra) with (cos (angleAt b) * rb) by lra.
    ring. }
  apply Rmult_integral in Hprod. destruct Hprod as [H|H]; [exact H|].
  exfalso. assert (0 < ra * rb) by (apply Rmult_lt_0_compat; lra). lra.
Qed.

Lemma wrapIndex_lt (k : Z) (len : nat) :
  (0 <= k)%Z -> (0 < len)%nat -> (wrapIndex k len < len)%nat.
Proof.
  intros Hk Hlen. unfold wrapIndex.
  rewrite Z.rem_mod_nonneg by lia.
  pose proof (Z.mod_pos_bound k (Z.of_nat len)). lia.
Qed.

(** The central difference spans two steps of the circle, also across the
    seam of the closed loop. *)
Lemma tangent_angle (i : nat) :
  (i < numPoints)%nat ->
  sin (angleAt (wrapIndex (Z.of_nat i + 1) numPoints)
       - angleAt (wrapIndex (Z.of_nat i - 1 + Z.of_nat numPoints) numPoints))
  = sin (PI / 8).
Proof.
  unfold numPoints. intros Hi.
  assert (Hshift : forall t, sin (t - 2 * PI) = sin t).
  { intros t. rewrite sin_minus, sin_2PI, cos_2PI. ring. }
  do 32 (destruct i as [|i];
         [ eval_wrap; unfold angleAt, numPoints; rewrite !INR_IZR_INZ; simpl Z.of_nat;
           first [ f_equal; lra
                 | rewrite <- (Hshift (PI / 8)); f_equal; lra ] | ]).
  lia.
Qed.

Lemma V2_length_zero (v : THREE.Vector2) :
  THREE.V2.length v = 0 -> THREE.x2 v = 0 /\ THREE.y2 v = 0.
Proof.
  unfold THREE.V2.length. intros H.
  apply sqrt_eq_0 in H; [|nra]. split; nra.
Qed.

Lemma V2_normalize_unit (v : THREE.Vector2) :
  THREE.V2.length v <> 0 ->
  THREE.x2 (THREE.V2.normalize v) * THREE.x2 (THREE.V2.normalize v)
  + THREE.y2 (THREE.V2.normalize v) * THREE.y2 (THREE.V2.normalize v) = 1.
Proof.
  intros Hl. unfold THREE.V2.normalize, THREE.or1.
  destruct (Req_dec_T (THREE.V2.length v) 0) as [E|_]; [contradiction|].
  unfold THREE.V2.divideScalar, THREE.V2.multiplyScalar; simpl.
  assert (Hsq : THREE.V2.length v * THREE.V2.length v
                = THREE.x2 v * THREE.x2 v + THREE.y2 v * THREE.y2 v).
  { unfold THREE.V2.length. apply sqrt_sqrt. nra. }
  field_simplify_eq; [|exact Hl]. lra.
Qed.

Lemma tangent_nonzero (i : nat) :
  (i < numPoints)%nat ->
  let T := generateRandomTrack in
  let len := List.length T in
  THREE.V2.length
    (THREE.mkVector2
       (px (at_ T (wrapIndex (Z.of_nat i + 1) len))
        - px (at_ T (wrapIndex (Z.of_nat i - 1 + Z.of_nat len) len)))
       (pz (at_ T (wrapIndex (Z.of_nat i + 1) len))
        - pz (at_ T (wrapIndex (Z.of_nat i - 1 + Z.of_nat len) len)))) <> 0.
Proof.
  intros Hi T len. subst T len. rewrite generateRandomTrack_length.
  assert (Hn : (0 < numPoints)%nat) by (unfold numPoints; lia).
  rewrite !generateRandomTrack_at by (apply wrapIndex_lt; lia).
  intros H0. apply V2_length_zero in H0. simpl in H0. destruct H0 as [Hx Hz].
  apply (trackPointAt_apart _ _ ) in Hx; [exact Hx| |exact Hz].
  rewrite tangent_angle by exact Hi. pose proof sin_PI8_pos. lra.
Qed.

Lemma perpendicular_unit (i : nat) :
  (i < numPoints)%nat ->
  let p := perpendicularAt generateRandomTrack i in
  THREE.x2 p * THREE.x2 p + THREE.y2 p * THREE.y2 p = 1.
Proof.
  intros Hi p. subst p. unfold perpendicularAt. cbv zeta.
  set (d := THREE.V2.normalize _).
  assert (Hd : THREE.x2 d * THREE.x2 d + THREE.y2 d * THREE.y2 d = 1)
    by (apply V2_normalize_unit, (tangent_nonzero i Hi)).
  clearbody d. simpl. rewrite <- Hd. ring.
Qed.

Lemma offset_distance (a b u v h : R) :
  u * u + v * v = 1 -> 0 <= h ->
  sqrt ((a + u * h - a) * (a + u * h - a) + (b + v * h - b) * (b + v * h - b)) = h
  /\ sqrt ((a - u * h - a) * (a - u * h - a) + (b - v * h - b) * (b - v * h - b)) = h.
Proof.
  intros Huv Hh. split.
  - replace ((a + u * h - a) * (a + u * h - a) + (b + v * h - b) * (b + v * h - b))
      with (h * h) by nra.
    now apply sqrt_square.
  - replace ((a - u * h - a) * (a - u * h - a) + (b - v * h - b) * (b - v * h - b))
      with (h * h) by nra.
    now apply sqrt_square.
Qed.

Lemma boundary_at (T : list TrackPoint) (i : nat) :
  (i < List.length T)%nat ->
  at_ (outerPoints T) i = outerPointAt T i /\ at_ (innerPoints T) i = innerPointAt T i.
Proof.
  intros Hi. unfold at_, outerPoints, innerPoints. split.
  - rewrite nth_indep with (d' := outerPointAt T 0) by (now rewrite length_map, length_seq).
    rewrite map_nth, seq_nth by exact Hi. reflexivity.
  - rewrite nth_indep with (d' := innerPointAt T 0) by (now rewrite length_map, length_seq).
    rewrite map_nth, seq_nth by exact Hi. reflexivity.
Qed.

Lemma V2_normalize_components (v : THREE.Vector2) :
  THREE.V2.length v <> 0 ->
  THREE.V2.normalize v
  = THREE.mkVector2 (THREE.x2 v * (1 / THREE.V2.length v))
                    (THREE.y2 v * (1 / THREE.V2.length v)).
Proof.
  intros Hl. unfold THREE.V2.normalize, THREE.or1.
  destruct (Req_dec_T (THREE.V2.length v) 0); [contradiction|reflexivity].
Qed.

Lemma wrapIndex_next (i len : nat) :
  (0 < len)%nat -> wrapIndex (Z.of_nat i + 1) len = ((i + 1) mod len)%nat.
Proof.
  intros Hlen. unfold wrapIndex. rewrite Z.rem_mod_nonneg by lia.
  replace (Z.of_nat i + 1)%Z with (Z.of_nat (i + 1)) by lia.
  now rewrite <- Nat2Z.inj_mod, Nat2Z.id.
Qed.

Lemma wrapIndex_prev (i len : nat) :
  (0 < len)%nat ->
  wrapIndex (Z.of_nat i - 1 + Z.of_nat len) len = ((i + len - 1) mod len)%nat.
Proof.
  intros Hlen. unfold wrapIndex. rewrite Z.rem_mod_nonneg by lia.
  replace (Z.of_nat i - 1 + Z.of_nat len)%Z with (Z.of_nat (i + len - 1)) by lia.
  now rewrite <- Nat2Z.inj_mod, Nat2Z.id.
Qed.

(** C6: for every index [i] of the generated centerline, with the central
    difference [(dx, dz)] between the points at the indices [i + 1] and
    [i - 1] taken modulo the number of points: the difference is not zero; the
    outer point is point [i] plus [trackWidth / 2] times the normalized
    difference turned by a quarter, [(- dz, dx) / len], and the inner point is
    point [i] minus the same; both are at distance exactly
    [trackWidth / 2 = 30] from point [i] (exactly, in real arithmetic). *)
Theorem C6_boundary_half_width :
  let T := generateRandomTrack in
  trackWidth / 2 = 30
  /\ List.length (outerPoints T) = List.length T
  /\ List.length (innerPoints T) = List.length T
  /\ Forall (fun i =>
               let point := at_ T i in
               let nextPoint := at_ T ((i + 1) mod List.length T) in
               let prevPoint := at_ T ((i + List.length T - 1) mod List.length T) in
               let dx := px nextPoint - px prevPoint in
               let dz := pz nextPoint - pz prevPoint in
               let len := sqrt (dx * dx + dz * dz) in
               0 < len
               /\ at_ (outerPoints T) i
                  = mkPoint (px point + - (dz / len) * (trackWidth / 2))
                            (pz point + dx / len * (trackWidth / 2))
               /\ at_ (innerPoints T) i
                  = mkPoint (px point - - (dz / len) * (trackWidth / 2))
                            (pz point - dx / len * (trackWidth / 2))
               /\ distance (at_ (outerPoints T) i) (at_ T i) = trackWidth / 2
               /\ distance (at_ (innerPoints T) i) (at_ T i) = trackWidth / 2)
            (seq 0 (List.length T)).
Proof.
  intros T.
  split; [unfold trackWidth; lra|].
  split; [unfold outerPoints; now rewrite length_map, length_seq|].
  split; [unfold innerPoints; now rewrite length_map, length_seq|].
  apply Forall_forall. intros i Hi. apply in_seq in Hi. destruct Hi as [_ Hi].
  rewrite Nat.add_0_l in Hi. cbv zeta.
  destruct (boundary_at T i Hi) as [-> ->].
  assert (Hlen : (0 < List.length T)%nat) by lia.
  rewrite <- (wrapIndex_next i _ Hlen), <- (wrapIndex_prev i _ Hlen).
  subst T. rewrite generateRandomTrack_length in Hi.
  pose proof (tangent_nonzero i Hi) as HL. cbv zeta in HL.
  unfold outerPointAt, innerPointAt, perpendicularAt. cbv zeta.
  set (next := at_ generateRandomTrack
                 (wrapIndex (Z.of_nat i + 1) (List.length generateRandomTrack))) in *.
  set (prev := at_ generateRandomTrack
                 (wrapIndex (Z.of_nat i - 1 + Z.of_nat (List.length generateRandomTrack))
                    (List.length generateRandomTrack))) in *.
  rewrite (V2_normalize_components _ HL).
  change (sqrt ((px next - px prev) * (px next - px prev)
                + (pz next - pz prev) * (pz next - pz prev)))
    with (THREE.V2.length (THREE.mkVector2 (px next - px prev) (pz next - pz prev))).
  set (L := THREE.V2.length (THREE.mkVector2 (px next - px prev) (pz next - pz prev))) in *.
  assert (Hpos : 0 < L).
  { assert (0 <= L) by (subst L; apply sqrt_pos). lra. }
  assert (HLL : L * L = (px next - px prev) * (px next - px prev)
                        + (pz next - pz prev) * (pz next - pz prev)).
  { subst L. unfold THREE.V2.length. simpl THREE.x2. simpl THREE.y2. apply sqrt_sqrt.
    apply Rplus_le_le_0_compat; apply Rle_0_sqr. }
  clearbody L. simpl THREE.x2. simpl THREE.y2.
  split; [exact Hpos|].
  split; [f_equal; unfold Rdiv; ring|].
  split; [f_equal; unfold Rdiv; ring|].
  unfold distance, trackWidth. simpl px. simpl pz.
  apply offset_distance; [|lra].
  replace (- ((pz next - pz prev) * (1 / L)) * - ((pz next - pz prev) * (1 / L))
           + (px next - px prev) * (1 / L) * ((px next - px prev) * (1 / L)))
    with (((px next - px prev) * (px next - px prev)
           + (pz next - pz prev) * (pz next - pz prev)) * (1 / L * (1 / L))) by ring.
  rewrite <- HLL. field. lra.
Qed.

(** ** The frame callback: what each variable holds after [animate] *)

Lemma animate_handbrakeIntensity (car : Car) (keys : Keys) (dt : R) :
  handbrakeIntensity (animate car keys dt) = handbrakeAfter car keys dt.
Proof. unfold animate, handbrakeAfter. cbv zeta. split_tuples; reflexivity. Qed.

Lemma animate_currentCameraMode (car : Car) (keys : Keys) (dt : R) :
  currentCameraMode (animate car keys dt)
  = if keys "keyc"%string then toggleCamera (currentCameraMode car) else currentCameraMode car.
Proof. unfold animate. cbv zeta. split_tuples; reflexivity. Qed.

Lemma animate_velocity (car : Car) (keys : Keys) (dt : R) :
  velocity (animate car keys dt)
  = if Rgtb (handbrakeAfter car keys dt) 0
    then THREE.multiplyScalar (drivenVelocity car keys dt)
                              (0.85 + handbrakeAfter car keys dt * 0.1)
    else drivenVelocity car keys dt.
Proof.
  unfold animate, handbrakeAfter, drivenVelocity. cbv zeta.
  split_tuples; reflexivity.
Qed.

Lemma animate_speed (car : Car) (keys : Keys) (dt : R) :
  speed (animate car keys dt) = THREE.length (velocity (animate car keys dt)) * 2.5.
Proof. unfold animate. cbv zeta. split_tuples; reflexivity. Qed.

Lemma animate_gear (car : Car) (keys : Keys) (dt : R) :
  let currentMaxSpeed := index maxSpeedByGear (gear car) in
  let speed := speed (animate car keys dt) in
  gear (animate car keys dt)
  = if negb (keys "keyu"%string) && gtU speed (scaleU currentMaxSpeed 0.9) && (gear car <? 6)%Z
    then (gear car + 1)%Z
    else if negb (keys "keyu"%string) && ltU speed (scaleU currentMaxSpeed 0.4)
            && (1 <? gear car)%Z
    then (gear car - 1)%Z
    else gear car.
Proof. unfold animate. cbv zeta. split_tuples; reflexivity. Qed.

Lemma animate_rotation (car : Car) (keys : Keys) (dt : R) :
  rotation (animate car keys dt) = rotationAfter car keys dt.
Proof.
  unfold animate, rotationAfter, steers, handbrakeAfter, drivenVelocity. cbv zeta.
  split_tuples; reflexivity.
Qed.

Lemma animate_driftFactor (car : Car) (keys : Keys) (dt : R) :
  driftFactor (animate car keys dt)
  = if steers car keys dt then derivedDriftFactor car keys dt else driftFactor car.
Proof.
  unfold animate, steers, derivedDriftFactor, handbrakeAfter, drivenVelocity. cbv zeta.
  split_tuples; reflexivity.
Qed.

Lemma animate_lateralVelocity (car : Car) (keys : Keys) (dt : R) :
  lateralVelocity (animate car keys dt)
  = if Rgtb (handbrakeAfter car keys dt) 0
    then THREE.multiplyScalar (slidLateralVelocity car keys dt)
                              (0.5 + handbrakeAfter car keys dt * 0.3)
    else slidLateralVelocity car keys dt.
Proof.
  unfold animate, slidLateralVelocity, rotationAfter, derivedDriftFactor, steers,
    handbrakeAfter, drivenVelocity. cbv zeta.
  split_tuples;
    repeat match goal with H : _ && _ = _ |- _ => rewrite H end;
    cbv beta iota; try reflexivity;
    repeat match goal with |- context [if ?c then _ else _] => destruct c end; reflexivity.
Qed.

Lemma animate_position (car : Car) (keys : Keys) (dt : R) :
  position (animate car keys dt)
  = THREE.add (position car)
      (THREE.multiplyScalar
         (THREE.add (drivenVelocity car keys dt) (slidLateralVelocity car keys dt)) dt).
Proof.
  unfold animate, slidLateralVelocity, rotationAfter, derivedDriftFactor, steers,
    handbrakeAfter, drivenVelocity. cbv zeta.
  split_tuples;
    repeat match goal with H : _ && _ = _ |- _ => rewrite H end;
    cbv beta iota; try reflexivity;
    repeat match goal with |- context [if ?c then _ else _] => destruct c end; reflexivity.
Qed.

(** ** Comparisons *)

Lemma Rgtb_true (a b : R) : a > b -> Rgtb a b = true.
Proof. intros H. unfold Rgtb. destruct (Rgt_dec a b); [reflexivity|contradiction]. Qed.

Lemma Rgtb_false (a b : R) : a <= b -> Rgtb a b = false.
Proof. intros H. unfold Rgtb. destruct (Rgt_dec a b); [lra|reflexivity]. Qed.

Lemma Rgtb_spec (a b : R) : Rgtb a b = true <-> a > b.
Proof.
  unfold Rgtb. destruct (Rgt_dec a b); split; intros; try assumption; try reflexivity.
  - discriminate.
  - contradiction.
Qed.

Lemma Rltb_spec (a b : R) : Rltb a b = true <-> a < b.
Proof.
  unfold Rltb. destruct (Rlt_dec a b); split; intros; try assumption; try reflexivity.
  - discriminate.
  - contradiction.
Qed.

Lemma Rltb_false (a b : R) : b <= a -> Rltb a b = false.
Proof. intros H. unfold Rltb. destruct (Rlt_dec a b); [lra|reflexivity]. Qed.

Lemma Reqb_true (a b : R) : a = b -> Reqb a b = true.
Proof. intros H. unfold Reqb. destruct (Req_dec_T a b); [reflexivity|contradiction]. Qed.

Lemma Reqb_false (a b : R) : a <> b -> Reqb a b = false.
Proof. intros H. unfold Reqb. destruct (Req_dec_T a b); [contradiction|reflexivity]. Qed.

(** ** C1: gear and handbrake intensity stay in range *)

Lemma handbrakeAfter_range (c : Car) (keys : Keys) (dt : R) :
  0 <= handbrakeIntensity c <= 1 -> 0 <= dt -> 0 <= handbrakeAfter c keys dt <= 1.
Proof.
  intros Hh Hdt. unfold handbrakeAfter.
  destruct (inputHandbraking keys).
  - unfold Rmin. destruct (Rle_dec _ _); lra.
  - unfold Rmax. destruct (Rle_dec _ _); lra.
Qed.

Lemma animate_gear_range (c : Car) (keys : Keys) (dt : R) :
  (1 <= gear c <= 6)%Z -> (1 <= gear (animate c keys dt) <= 6)%Z.
Proof.
  intros Hg. rewrite animate_gear. cbv zeta.
  destruct (_ && (gear c <? 6)%Z) eqn:Hup.
  - apply andb_prop in Hup. destruct Hup as [_ Hup]. apply Z.ltb_lt in Hup. lia.
  - destruct (_ && (1 <? gear c)%Z) eqn:Hdown.
    + apply andb_prop in Hdown. destruct Hdown as [_ Hdown]. apply Z.ltb_lt in Hdown. lia.
    + exact Hg.
Qed.

Lemma animate_inRange (c : Car) (keys : Keys) (dt : R) :
  0 <= dt -> inRange c -> inRange (animate c keys dt).
Proof.
  intros Hdt [Hg Hh]. split.
  - now apply animate_gear_range.
  - rewrite animate_handbrakeIntensity. now apply handbrakeAfter_range.
Qed.

Lemma handleKeyUpCar_inRange (c : Car) (code : string) :
  inRange c -> inRange (handleKeyUpCar c code).
Proof.
  intros [Hg Hh]. unfold handleKeyUpCar.
  destruct (String.eqb _ _); [|now split].
  split; simpl; [|exact Hh].
  destruct (6 <=? gear c)%Z eqn:E; [lia|]. apply Z.leb_gt in E. lia.
Qed.

Lemma step_inRange (w : World) (e : Event) :
  match e with Frame dt => 0 <= dt | _ => True end ->
  inRange (car w) -> inRange (car (step w e)).
Proof.
  destruct e as [code|code|dt]; simpl; intros He Hw.
  - exact Hw.
  - now apply handleKeyUpCar_inRange.
  - now apply animate_inRange.
Qed.

Lemma initialCar_inRange : inRange initialCar.
Proof. unfold inRange, initialCar; simpl. split; [lia|lra]. Qed.

(** C1: in every state reached from the initial one by key events and frames
    whose [deltaTime] is not negative, the gear is an integer between 1 and 6
    and the handbrake intensity lies between 0 and 1. *)
Theorem C1_gear_and_handbrake_in_range (events : list Event) :
  nonNegativeFrames events ->
  let c := car (run initialWorld events) in
  (1 <= gear c <= 6)%Z /\ 0 <= handbrakeIntensity c <= 1.
Proof.
  intros Hev. cbv zeta. unfold run.
  assert (H0 : inRange (car initialWorld)) by exact initialCar_inRange.
  revert H0. generalize initialWorld as w.
  induction Hev as [|e events He Hev IH]; intros w Hw; simpl.
  - exact Hw.
  - apply IH. now apply step_inRange.
Qed.

Lemma C1_gear_and_handbrake_in_range_witness :
  let events :=
    [KeyDown "Space"; Frame (1 / 60); KeyUp "KeyU"; KeyDown "KeyW"; Frame 1; KeyUp "Space";
     Frame (1 / 30)] in
  let c := car (run initialWorld events) in
  nonNegativeFrames events
  /\ (1 <= gear c <= 6)%Z /\ 0 <= handbrakeIntensity c <= 1.
Proof.
  cbv zeta.
  assert (H : nonNegativeFrames
                [KeyDown "Space"; Frame (1 / 60); KeyUp "KeyU"; KeyDown "KeyW"; Frame 1;
                 KeyUp "Space"; Frame (1 / 30)])
    by (unfold nonNegativeFrames; repeat constructor; lra).
  split; [exact H|].
  exact (C1_gear_and_handbrake_in_range _ H).
Defined.

(** ** C10: the simulation is planar *)

Lemma applyQuaternion_yaw_y (v : THREE.Vector3) (e : THREE.Euler) :
  THREE.ex e = 0 -> THREE.ez e = 0 ->
  THREE.y (THREE.applyQuaternion v (THREE.setFromEuler e)) = THREE.y v.
Proof.
  intros Hx Hz. unfold THREE.applyQuaternion, THREE.setFromEuler. cbv zeta. simpl.
  rewrite Hx, Hz. replace (0 / 2) with 0 by lra. rewrite sin_0, cos_0. ring.
Qed.

Lemma y_add (v w : THREE.Vector3) : THREE.y (THREE.add v w) = THREE.y v + THREE.y w.
Proof. reflexivity. Qed.

Lemma y_multiplyScalar (v : THREE.Vector3) (s : R) :
  THREE.y (THREE.multiplyScalar v s) = THREE.y v * s.
Proof. reflexivity. Qed.

Lemma y_normalize (v : THREE.Vector3) :
  THREE.y (THREE.normalize v) = THREE.y v * (1 / THREE.or1 (THREE.length v)).
Proof. reflexivity. Qed.

Lemma rotationAfter_yaw (c : Car) (keys : Keys) (dt : R) :
  THREE.ex (rotationAfter c keys dt) = THREE.ex (rotation c)
  /\ THREE.ez (rotationAfter c keys dt) = THREE.ez (rotation c).
Proof. unfold rotationAfter. destruct (steers c keys dt); simpl; split; reflexivity. Qed.

Lemma drivenVelocity_y (c : Car) (keys : Keys) (dt : R) :
  planar c -> THREE.y (drivenVelocity c keys dt) = 0.
Proof.
  intros (Hv & _ & _ & Hx & Hz). unfold drivenVelocity. cbv zeta.
  set (v := if Reqb (inputAcceleration keys) 0 then _ else _).
  assert (Hy : THREE.y v = 0).
  { subst v. destruct (Reqb _ _); [exact Hv|].
    rewrite y_add, y_multiplyScalar. unfold quaternion.
    rewrite applyQuaternion_yaw_y by assumption. simpl. lra. }
  clearbody v.
  destruct (index _ _) as [m|]; [destruct (Rgtb _ _)|];
    repeat (rewrite y_multiplyScalar || rewrite y_normalize);
    rewrite Hy; unfold Rdiv; ring.
Qed.

Lemma slidLateralVelocity_y (c : Car) (keys : Keys) (dt : R) :
  planar c -> THREE.y (slidLateralVelocity c keys dt) = 0.
Proof.
  intros (_ & Hl & _ & Hx & Hz). unfold slidLateralVelocity. cbv zeta.
  destruct (_ && _); rewrite y_multiplyScalar.
  - destruct (rotationAfter_yaw c keys dt) as [Ex Ez].
    rewrite y_add, y_multiplyScalar, applyQuaternion_yaw_y by congruence.
    simpl. rewrite Hl. ring.
  - rewrite Hl. ring.
Qed.

Lemma animate_planar (c : Car) (keys : Keys) (dt : R) :
  planar c -> planar (animate c keys dt).
Proof.
  intros Hp.
  pose proof (drivenVelocity_y c keys dt Hp) as Hv.
  pose proof (slidLateralVelocity_y c keys dt Hp) as Hl.
  destruct (rotationAfter_yaw c keys dt) as [Ex Ez].
  destruct Hp as (_ & _ & Hpos & Hx & Hz).
  unfold planar.
  rewrite animate_velocity, animate_lateralVelocity, animate_position, animate_rotation.
  repeat split.
  - destruct (Rgtb _ _); rewrite ?y_multiplyScalar, Hv; ring.
  - destruct (Rgtb _ _); rewrite ?y_multiplyScalar, Hl; ring.
  - rewrite y_add, y_multiplyScalar, y_add, Hpos, Hv, Hl. lra.
  - congruence.
  - congruence.
Qed.

Lemma handleKeyUpCar_planar (c : Car) (code : string) :
  planar c -> planar (handleKeyUpCar c code).
Proof. unfold handleKeyUpCar. destruct (String.eqb _ _); intros H; exact H. Qed.

Lemma initialCar_planar : planar initialCar.
Proof. unfold planar, initialCar; simpl. repeat split; reflexivity. Qed.

(** C10: the simulation is planar.  From the initial state, after any key
    events and any frames, whatever their [deltaTime], the [y] components of
    [velocity] and [lateralVelocity] are 0, the car's [y] coordinate is 0.5,
    and the rotation has no component about the [x] or the [z] axis: only the
    yaw is ever changed. *)
Theorem C10_simulation_is_planar (events : list Event) :
  let c := car (run initialWorld events) in
  THREE.y (velocity c) = 0
  /\ THREE.y (lateralVelocity c) = 0
  /\ THREE.y (position c) = 0.5
  /\ THREE.ex (rotation c) = 0
  /\ THREE.ez (rotation c) = 0.
Proof.
  cbv zeta. unfold run.
  assert (H0 : planar (car initialWorld)) by exact initialCar_planar.
  revert H0. generalize initialWorld as w.
  induction events as [|e events IH]; intros w Hw; simpl.
  - exact Hw.
  - apply IH. destruct e as [code|code|dt]; simpl.
    + exact Hw.
    + now apply handleKeyUpCar_planar.
    + now apply animate_planar.
Qed.

(** ** The controls *)

(** [animate] reads the key table only through these five values. *)
Lemma animate_keys_ext (c : Car) (k1 k2 : Keys) (dt : R) :
  inputAcceleration k1 = inputAcceleration k2 ->
  inputSteering k1 = inputSteering k2 ->
  inputHandbraking k1 = inputHandbraking k2 ->
  k1 "keyc"%string = k2 "keyc"%string ->
  k1 "keyu"%string = k2 "keyu"%string ->
  animate c k1 dt = animate c k2 dt.
Proof.
  intros Ha Hs Hh Hc Hu. unfold animate. rewrite Ha, Hs, Hh, Hc, Hu. reflexivity.
Qed.

Lemma inputSteering_right (keys : Keys) :
  keys "keyd"%string || keys "arrowright"%string = true -> inputSteering keys = -1.
Proof. intros H. unfold inputSteering. cbv zeta. rewrite H. reflexivity. Qed.

(** C9: when steer-right is asserted, asserting steer-left as well changes
    nothing: the steering value is the one of steer-right alone, [-1], and the
    frame computed with both controls held is the frame computed with
    steer-left released. *)
Theorem C9_right_overrides_left (c : Car) (keys : Keys) (dt : R) :
  keys "keyd"%string || keys "arrowright"%string = true ->
  inputSteering keys = -1
  /\ inputSteering (releaseLeft keys) = -1
  /\ animate c keys dt = animate c (releaseLeft keys) dt.
Proof.
  intros Hright.
  assert (Hright' : releaseLeft keys "keyd"%string || releaseLeft keys "arrowright"%string = true)
    by exact Hright.
  pose proof (inputSteering_right keys Hright) as H1.
  pose proof (inputSteering_right (releaseLeft keys) Hright') as H2.
  repeat split; try assumption.
  apply animate_keys_ext; try reflexivity. congruence.
Qed.

Lemma C9_right_overrides_left_witness :
  let keys := setKey (setKey noKeys "keya" true) "keyd" true in
  (keys "keya"%string = true /\ keys "keyd"%string || keys "arrowright"%string = true)
  /\ inputSteering keys = -1
  /\ inputSteering (releaseLeft keys) = -1
  /\ animate initialCar keys (1 / 60) = animate initialCar (releaseLeft keys) (1 / 60).
Proof.
  cbv zeta. split; [split; reflexivity|].
  apply (C9_right_overrides_left initialCar
           (setKey (setKey noKeys "keya" true) "keyd" true) (1 / 60)).
  reflexivity.
Defined.

(** With boost held, [acceleration] is the throttle times 1.5, whatever its
    sign. *)
Lemma inputAcceleration_boost (keys : Keys) (g : Z) :
  inputBoost keys = true ->
  engineForce (inputAcceleration keys) g = 1.5 * engineForce (inputThrottle keys) g.
Proof.
  intros H. unfold inputAcceleration, engineForce. cbv zeta. rewrite H. ring.
Qed.

Lemma inputAcceleration_coasting (keys : Keys) :
  inputThrottle keys = 0 -> inputAcceleration keys = 0.
Proof.
  intros H. unfold inputAcceleration. cbv zeta. rewrite H.
  destruct (inputBoost keys); lra.
Qed.

(** C4, on the code: with the brake key held in first gear the throttle is
    [-0.5] with or without boost, yet the engine force is [-20] without boost
    and [-30] with it: line 371 multiplies [acceleration] by 1.5 without
    looking at its sign. *)
Theorem C4_boost_scales_braking_force :
  let braking := setKey noKeys "keys" true in
  let boosted := setKey braking "shiftleft" true in
  inputThrottle braking = -0.5
  /\ inputThrottle boosted = -0.5
  /\ inputBoost braking = false
  /\ inputBoost boosted = true
  /\ engineForce (inputAcceleration braking) 1 = -20
  /\ engineForce (inputAcceleration boosted) 1 = -30.
Proof.
  cbv zeta. unfold engineForce. eval_keys. repeat split; lra.
Qed.

(** ** C7: the drift factor *)

Lemma steers_noSteering (c : Car) (keys : Keys) (dt : R) :
  inputSteering keys = 0 -> steers c keys dt = false.
Proof.
  intros H. unfold steers. rewrite H, Reqb_true by reflexivity. apply andb_false_r.
Qed.

(** C7 as stated fails: on a frame without steering the variable keeps the
    value it had before the frame. *)
Lemma C7_driftFactor_persists :
  driftFactor (animate (withDriftFactor initialCar 0) noKeys (1 / 60)) = 0
  /\ driftFactor (animate (withDriftFactor initialCar 1) noKeys (1 / 60)) = 1
  /\ driftFactor (animate (withDriftFactor initialCar 0) noKeys (1 / 60))
     <> driftFactor (animate (withDriftFactor initialCar 1) noKeys (1 / 60)).
Proof.
  rewrite !animate_driftFactor, !steers_noSteering by reflexivity.
  simpl. repeat split; lra.
Qed.

(** C7, amended: the variable [driftFactor] is assigned only on a frame that
    steers (steering not zero and speed above 0.1), and then from that frame's
    steering, speed factor and handbrake intensity alone; on any other frame it
    keeps its value.  The value kept is never read: whether the frame steers,
    and every other variable after the frame, are the same whatever
    [driftFactor] was before. *)
Theorem C7_driftFactor_derived_when_steering (c : Car) (d : R) (keys : Keys) (dt : R) :
  let after := animate (withDriftFactor c d) keys dt in
  driftFactor after
  = (if steers c keys dt
     then Rabs (inputSteering keys)
          * Rmin (THREE.length (drivenVelocity c keys dt) / 50) 1
          * (1 + handbrakeAfter c keys dt * 2)
     else d)
  /\ withDriftFactor after 0 = withDriftFactor (animate c keys dt) 0.
Proof.
  cbv zeta. split.
  - rewrite animate_driftFactor. reflexivity.
  - unfold withDriftFactor.
    rewrite !animate_position, !animate_rotation, !animate_velocity, !animate_lateralVelocity,
      !animate_gear, !animate_currentCameraMode, !animate_handbrakeIntensity. cbv zeta.
    rewrite !animate_speed, !animate_velocity.
    reflexivity.
Qed.

(** ** Lengths *)

Lemma length_nonneg (v : THREE.Vector3) : 0 <= THREE.length v.
Proof. apply sqrt_pos. Qed.

Lemma length_multiplyScalar (v : THREE.Vector3) (s : R) :
  THREE.length (THREE.multiplyScalar v s) = Rabs s * THREE.length v.
Proof.
  unfold THREE.length, THREE.multiplyScalar; simpl.
  replace (THREE.x v * s * (THREE.x v * s) + THREE.y v * s * (THREE.y v * s)
           + THREE.z v * s * (THREE.z v * s))
    with (Rsqr s * (THREE.x v * THREE.x v + THREE.y v * THREE.y v + THREE.z v * THREE.z v))
    by (unfold Rsqr; ring).
  rewrite sqrt_mult; [|apply Rle_0_sqr|nra].
  now rewrite sqrt_Rsqr_abs.
Qed.

Lemma length_normalize (v : THREE.Vector3) :
  THREE.length v <> 0 -> THREE.length (THREE.normalize v) = 1.
Proof.
  intros Hl. unfold THREE.normalize, THREE.or1.
  destruct (Req_dec_T (THREE.length v) 0) as [E|_]; [contradiction|].
  unfold THREE.divideScalar. rewrite length_multiplyScalar.
  pose proof (length_nonneg v) as Hp.
  rewrite Rabs_right; [now field|].
  apply Rle_ge. left. unfold Rdiv. rewrite Rmult_1_l. apply Rinv_0_lt_compat. lra.
Qed.

Lemma length_along_z (v : R) : 0 <= v -> THREE.length (THREE.mkVector3 0 0 v) = v.
Proof.
  intros Hv. unfold THREE.length; simpl.
  replace (0 * 0 + 0 * 0 + v * v) with (v * v) by ring. now apply sqrt_square.
Qed.

Lemma index_maxSpeedByGear (g : Z) :
  (1 <= g <= 6)%Z ->
  index maxSpeedByGear g = Some (maxSpeedOf g) /\ 60 <= maxSpeedOf g <= 350.
Proof.
  intros Hg.
  assert (H : g = 1%Z \/ g = 2%Z \/ g = 3%Z \/ g = 4%Z \/ g = 5%Z \/ g = 6%Z) by lia.
  destruct H as [->|[->|[->|[->|[->| ->]]]]]; unfold maxSpeedOf; simpl; split;
    try reflexivity; lra.
Qed.

Lemma index_maxSpeedByGear_nonneg (g : Z) (m : R) :
  index maxSpeedByGear g = Some m -> 0 <= m.
Proof.
  unfold index. destruct (g <? 0)%Z; [discriminate|].
  intros H. apply nth_error_In in H. simpl in H.
  repeat (destruct H as [<-|H]; [lra|]). contradiction.
Qed.

(** ** C2: without throttle the velocity only decays *)

Lemma drivenVelocity_coasting (c : Car) (keys : Keys) (dt : R) :
  inputAcceleration keys = 0 ->
  THREE.length (drivenVelocity c keys dt) <= THREE.length (velocity c).
Proof.
  intros Ha. unfold drivenVelocity. cbv zeta. rewrite Ha, Reqb_true by reflexivity.
  pose proof (length_nonneg (velocity c)) as Hp.
  assert (Hdrag : THREE.length (THREE.multiplyScalar (velocity c) 0.98)
                  = 0.98 * THREE.length (velocity c)).
  { rewrite length_multiplyScalar, Rabs_right by lra. reflexivity. }
  destruct (index maxSpeedByGear (gear c)) as [m|] eqn:Hm; [|lra].
  destruct (Rgtb _ m) eqn:Hcap; [|lra].
  apply Rgtb_spec in Hcap. apply index_maxSpeedByGear_nonneg in Hm.
  rewrite length_multiplyScalar, length_normalize, Rabs_right by lra. lra.
Qed.

(** C2: with zero throttle and zero steering, whatever the handbrake input,
    the magnitude of [velocity] after a frame with [deltaTime >= 0] is at most
    its magnitude before, for every car whose handbrake intensity is in
    [0,1]. *)
Theorem C2_drag_only_decay (c : Car) (keys : Keys) (dt : R) :
  0 <= handbrakeIntensity c <= 1 ->
  0 <= dt ->
  inputThrottle keys = 0 ->
  inputSteering keys = 0 ->
  THREE.length (velocity (animate c keys dt)) <= THREE.length (velocity c).
Proof.
  intros Hh Hdt Ht _.
  pose proof (drivenVelocity_coasting c keys dt (inputAcceleration_coasting keys Ht)) as Hd.
  pose proof (handbrakeAfter_range c keys dt Hh Hdt) as Hr.
  pose proof (length_nonneg (drivenVelocity c keys dt)) as Hp.
  rewrite animate_velocity.
  destruct (Rgtb _ 0) eqn:Hb; [|exact Hd].
  rewrite length_multiplyScalar, Rabs_right by lra. nra.
Qed.

Lemma C2_drag_only_decay_witness :
  let c :=
    mkCar (THREE.mkVector3 188 0.5 0) (THREE.mkEuler 0 0 0) (THREE.mkVector3 3 0 4)
          (THREE.mkVector3 0 0 0) 12.5 1 TPP 0 0.5 in
  let keys := setKey noKeys "space" true in
  (0 <= handbrakeIntensity c <= 1 /\ 0 <= 1 / 60
   /\ inputThrottle keys = 0 /\ inputSteering keys = 0)
  /\ THREE.length (velocity (animate c keys (1 / 60))) <= THREE.length (velocity c).
Proof.
  cbv zeta.
  assert (Hh : 0 <= 0.5 <= 1) by lra.
  assert (Hdt : 0 <= 1 / 60) by lra.
  split; [repeat split; first [reflexivity | simpl; lra | lra]|].
  apply (C2_drag_only_decay
           (mkCar (THREE.mkVector3 188 0.5 0) (THREE.mkEuler 0 0 0) (THREE.mkVector3 3 0 4)
                  (THREE.mkVector3 0 0 0) 12.5 1 TPP 0 0.5)
           (setKey noKeys "space" true) (1 / 60) Hh Hdt); reflexivity.
Defined.

(** ** Driving straight ahead under full throttle *)

Lemma forward_heading0 :
  THREE.applyQuaternion (THREE.mkVector3 0 0 1) (THREE.setFromEuler (THREE.mkEuler 0 0 0))
  = THREE.mkVector3 0 0 1.
Proof.
  unfold THREE.applyQuaternion, THREE.setFromEuler. cbv zeta. simpl.
  replace (0 / 2) with 0 by lra. rewrite sin_0, cos_0. f_equal; ring.
Qed.

Lemma straight_handbrakeAfter (c : Car) (v : R) (keys : Keys) (dt : R) :
  straight c v -> fullThrottle keys -> 0 <= dt -> handbrakeAfter c keys dt = 0.
Proof.
  intros (_ & _ & _ & Hh & _) (_ & _ & Hk) Hdt. unfold handbrakeAfter.
  rewrite Hk, Hh. unfold Rmax. destruct (Rle_dec _ _); lra.
Qed.

Lemma straight_drivenVelocity (c : Car) (v : R) (keys : Keys) (dt : R) :
  straight c v -> fullThrottle keys -> 0 <= dt ->
  drivenVelocity c keys dt = THREE.mkVector3 0 0 (straightVelocity dt v (gear c)).
Proof.
  intros (Hrot & Hvel & _ & _ & _ & Hv & Hg) (Ha & _ & _) Hdt.
  destruct (index_maxSpeedByGear (gear c) Hg) as [Hm Hmax].
  unfold drivenVelocity, straightVelocity. cbv zeta.
  rewrite Ha, Reqb_false by lra. unfold quaternion. rewrite Hrot, forward_heading0, Hvel, Hm.
  set (v1 := (v + (30 + IZR (gear c) * 10) * dt) * 0.98).
  assert (Hv1 : 0 <= v1).
  { subst v1. assert (0 <= IZR (gear c)) by (apply IZR_le; lia). nra. }
  replace (THREE.multiplyScalar
             (THREE.add (THREE.mkVector3 0 0 v)
                (THREE.multiplyScalar (THREE.mkVector3 0 0 1) (engineForce 1 (gear c) * dt)))
             0.98)
    with (THREE.mkVector3 0 0 v1)
    by (subst v1; unfold THREE.multiplyScalar, THREE.add, engineForce; simpl; f_equal; ring).
  rewrite length_along_z by exact Hv1.
  unfold Rmin. destruct (Rle_dec v1 (maxSpeedOf (gear c))) as [Hle|Hgt].
  - now rewrite Rgtb_false.
  - rewrite Rgtb_true by lra.
    unfold THREE.normalize, THREE.or1. rewrite length_along_z by exact Hv1.
    destruct (Req_dec_T v1 0); [lra|].
    unfold THREE.multiplyScalar, THREE.divideScalar; simpl. f_equal; field; lra.
Qed.

Lemma straight_slidLateralVelocity (c : Car) (v : R) (keys : Keys) (dt : R) :
  straight c v -> fullThrottle keys ->
  slidLateralVelocity c keys dt = THREE.mkVector3 0 0 0.
Proof.
  intros (_ & _ & Hl & _) (_ & Hs & _). unfold slidLateralVelocity. cbv zeta.
  rewrite steers_noSteering by exact Hs. simpl andb. cbv iota. rewrite Hl.
  unfold THREE.multiplyScalar; simpl. f_equal; ring.
Qed.

(** One frame of a car driving straight ahead under full throttle. *)
Lemma straight_frame (c : Car) (v : R) (keys : Keys) (dt : R) :
  straight c v -> fullThrottle keys -> 0 <= dt ->
  straight (animate c keys dt) (straightVelocity dt v (gear c)).
Proof.
  intros Hc Hk Hdt.
  pose proof (straight_handbrakeAfter c v keys dt Hc Hk Hdt) as Hh.
  pose proof (straight_drivenVelocity c v keys dt Hc Hk Hdt) as Hd.
  pose proof (straight_slidLateralVelocity c v keys dt Hc Hk) as Hl.
  assert (Hvel : velocity (animate c keys dt)
                 = THREE.mkVector3 0 0 (straightVelocity dt v (gear c))).
  { rewrite animate_velocity, Hh, Rgtb_false by lra. exact Hd. }
  destruct Hc as (Hrot & _ & _ & _ & _ & Hv & Hg).
  destruct Hk as (_ & Hs & _).
  destruct (index_maxSpeedByGear (gear c) Hg) as [_ Hmax].
  assert (Hv' : 0 <= straightVelocity dt v (gear c)).
  { unfold straightVelocity, Rmin.
    assert (0 <= IZR (gear c)) by (apply IZR_le; lia).
    destruct (Rle_dec _ _); nra. }
  unfold straight. repeat split.
  - rewrite animate_rotation. unfold rotationAfter.
    now rewrite steers_noSteering by exact Hs.
  - exact Hvel.
  - rewrite animate_lateralVelocity, Hh, Rgtb_false by lra. exact Hl.
  - now rewrite animate_handbrakeIntensity.
  - rewrite animate_speed, Hvel, length_along_z by exact Hv'. reflexivity.
  - exact Hv'.
  - apply animate_gear_range; exact Hg.
  - apply animate_gear_range; exact Hg.
Qed.

Lemma initialCar_straight : straight initialCar 0.
Proof. unfold straight, initialCar; simpl. repeat split; try reflexivity; try lra; lia. Qed.

Lemma throttleKeys_fullThrottle : fullThrottle throttleKeys.
Proof. unfold fullThrottle, throttleKeys. eval_keys. repeat split; lra. Qed.

(** ** C8: the first frame *)

(** C8: at [deltaTime = 1/60], in first gear, with throttle 1, no steering, no
    handbrake and no boost, from rest and heading along [+z]: the engine force
    is [1 * (30 + 1 * 10) = 40]; after the force, the drag and the cap the
    velocity is [(0, 0, 40 * (1/60) * 0.98)], about 0.653, which is also the
    velocity at the end of the frame, and [lateralVelocity] is still
    [(0,0,0)]. *)
Theorem C8_first_frame (c : Car) (keys : Keys) :
  gear c = 1%Z ->
  straight c 0 ->
  fullThrottle keys ->
  let c' := animate c keys (1 / 60) in
  engineForce (inputAcceleration keys) (gear c) = 1 * (30 + 1 * 10)
  /\ engineForce (inputAcceleration keys) (gear c) = 40
  /\ drivenVelocity c keys (1 / 60) = THREE.mkVector3 0 0 (40 * (1 / 60) * 0.98)
  /\ velocity c' = THREE.mkVector3 0 0 (40 * (1 / 60) * 0.98)
  /\ Rabs (THREE.z (velocity c') - 0.653) < 0.001
  /\ lateralVelocity c' = THREE.mkVector3 0 0 0.
Proof.
  intros Hg Hc Hk. cbv zeta.
  assert (Hdt : 0 <= 1 / 60) by lra.
  pose proof (straight_drivenVelocity c 0 keys (1 / 60) Hc Hk Hdt) as Hd.
  destruct (straight_frame c 0 keys (1 / 60) Hc Hk Hdt) as (_ & Hvel & Hlat & _).
  assert (Hz : straightVelocity (1 / 60) 0 (gear c) = 40 * (1 / 60) * 0.98).
  { rewrite Hg. unfold straightVelocity, maxSpeedOf; simpl.
    unfold Rmin. destruct (Rle_dec _ _); lra. }
  destruct Hk as (Ha & _ & _).
  rewrite Hd, Hvel, Hlat, Hz, Ha, Hg. unfold engineForce. simpl THREE.z.
  repeat split; try lra.
  unfold Rabs. destruct (Rcase_abs _); lra.
Qed.

Lemma C8_first_frame_witness :
  let c' := animate initialCar throttleKeys (1 / 60) in
  (gear initialCar = 1%Z /\ straight initialCar 0 /\ fullThrottle throttleKeys)
  /\ engineForce (inputAcceleration throttleKeys) (gear initialCar) = 1 * (30 + 1 * 10)
  /\ engineForce (inputAcceleration throttleKeys) (gear initialCar) = 40
  /\ drivenVelocity initialCar throttleKeys (1 / 60)
     = THREE.mkVector3 0 0 (40 * (1 / 60) * 0.98)
  /\ velocity c' = THREE.mkVector3 0 0 (40 * (1 / 60) * 0.98)
  /\ Rabs (THREE.z (velocity c') - 0.653) < 0.001
  /\ lateralVelocity c' = THREE.mkVector3 0 0 0.
Proof.
  cbv zeta. split.
  - split; [reflexivity|]. split; [exact initialCar_straight|exact throttleKeys_fullThrottle].
  - exact (C8_first_frame initialCar throttleKeys eq_refl initialCar_straight
             throttleKeys_fullThrottle).
Defined.

(** ** C3: holding the throttle from rest *)

Lemma maxSpeedOf_next (g : Z) :
  (1 <= g <= 5)%Z ->
  maxSpeedOf g <= maxSpeedOf (g + 1) /\ maxSpeedOf (g + 1) * 0.4 <= maxSpeedOf g * 0.9.
Proof.
  intros Hg.
  assert (H : g = 1%Z \/ g = 2%Z \/ g = 3%Z \/ g = 4%Z \/ g = 5%Z) by lia.
  destruct H as [->|[->|[->|[-> | ->]]]]; unfold maxSpeedOf; simpl; lra.
Qed.

Lemma accelerating_frame (c : Car) (v : R) (keys : Keys) (dt : R) :
  accelerating dt c v -> fullThrottle keys -> 0 <= dt ->
  let v' := straightVelocity dt v (gear c) in
  accelerating dt (animate c keys dt) v'
  /\ v <= v'
  /\ v' <= maxSpeedOf (gear c)
  /\ (gear c <= gear (animate c keys dt) <= 6)%Z.
Proof.
  intros (Hc & Hcap & Hbal & Hlow) Hk Hdt v'.
  pose proof (straight_frame c v keys dt Hc Hk Hdt) as Hc'. fold v' in Hc'.
  destruct Hc as (_ & _ & _ & _ & _ & Hv & Hg).
  destruct (index_maxSpeedByGear (gear c) Hg) as [Hm Hmax].
  assert (Hgear : 0 <= IZR (gear c)) by (apply IZR_le; lia).
  set (F := (30 + IZR (gear c) * 10) * dt) in *.
  assert (HF : 0 <= F) by (subst F; nra).
  assert (Hv' : v <= v' /\ v' <= maxSpeedOf (gear c) /\ v' <= 49 * F).
  { subst v'. unfold straightVelocity, Rmin. fold F. destruct (Rle_dec _ _); lra. }
  destruct Hv' as (Hup & Hcap' & Hbal').
  assert (Hspeed : speed (animate c keys dt) = v' * 2.5) by apply Hc'.
  pose proof (animate_gear c keys dt) as Hnext. cbv zeta in Hnext.
  rewrite Hspeed, Hm in Hnext. simpl gtU in Hnext. simpl ltU in Hnext.
  destruct (negb (keys "keyu"%string) && Rgtb (v' * 2.5) (maxSpeedOf (gear c) * 0.9)
            && (gear c <? 6)%Z) eqn:Eup.
  - (* automatic upshift *)
    apply andb_prop in Eup. destruct Eup as [Eup E6]. apply Z.ltb_lt in E6.
    apply andb_prop in Eup. destruct Eup as [_ Efast]. apply Rgtb_spec in Efast.
    destruct (maxSpeedOf_next (gear c)) as [Hmono Hgap]; [lia|].
    destruct Hc' as (Hr' & Hvel' & Hl' & Hh' & Hs' & Hv0' & Hg').
    unfold accelerating, straight. rewrite Hnext.
    repeat split; try assumption; try lia; try lra.
    rewrite plus_IZR. subst F. nra.
  - destruct (negb (keys "keyu"%string) && Rltb (v' * 2.5) (maxSpeedOf (gear c) * 0.4)
              && (1 <? gear c)%Z) eqn:Edown.
    + (* an automatic downshift cannot happen *)
      exfalso.
      apply andb_prop in Edown. destruct Edown as [Edown E1]. apply Z.ltb_lt in E1.
      apply andb_prop in Edown. destruct Edown as [_ Eslow]. apply Rltb_spec in Eslow.
      destruct Hlow as [Hone|Hlow]; [lia|lra].
    + destruct Hc' as (Hr' & Hvel' & Hl' & Hh' & Hs' & Hv0' & Hg').
      unfold accelerating, straight. rewrite Hnext.
      repeat split; try assumption; try lia; try lra.
      destruct Hlow as [Hone|Hlow]; [left; exact Hone|right; lra].
Qed.

Lemma initialCar_accelerating (dt : R) : 0 <= dt -> accelerating dt initialCar 0.
Proof.
  intros Hdt. unfold accelerating. split; [exact initialCar_straight|].
  unfold initialCar, maxSpeedOf; simpl. repeat split; try lra. now left.
Qed.

Lemma frames_accelerating (keys : Keys) (dt : R) (n : nat) :
  fullThrottle keys -> 0 <= dt ->
  exists v, accelerating dt (frames n initialCar keys dt) v.
Proof.
  intros Hk Hdt. induction n as [|n [v IH]].
  - exists 0. now apply initialCar_accelerating.
  - simpl. eexists. apply (accelerating_frame _ v keys dt IH Hk Hdt).
Qed.

(** Under full throttle the gearbox only ever shifts up: the gear after the
    frame is the next one when the gear key is up, the speed has passed
    nine tenths of the cap of the gear and the gear is below 6, and the same
    gear otherwise. *)
Lemma accelerating_gear (c : Car) (v : R) (keys : Keys) (dt : R) :
  accelerating dt c v -> fullThrottle keys -> 0 <= dt ->
  gear (animate c keys dt)
  = (if negb (keys "keyu"%string)
        && Rgtb (speed (animate c keys dt)) (maxSpeedOf (gear c) * 0.9)
        && (gear c <? 6)%Z
     then gear c + 1 else gear c)%Z.
Proof.
  intros Hacc Hk Hdt.
  destruct (accelerating_frame c v keys dt Hacc Hk Hdt) as (Hacc' & Hup & _ & _).
  destruct Hacc as (Hc & _ & _ & Hlow).
  destruct Hacc' as ((_ & _ & _ & _ & Hs' & _) & _).
  destruct Hc as (_ & _ & _ & _ & _ & _ & Hg).
  destruct (index_maxSpeedByGear (gear c) Hg) as [Hm _].
  rewrite (animate_gear c keys dt) at 1. cbv zeta. rewrite Hm. simpl gtU. simpl ltU.
  destruct (negb (keys "keyu"%string)
            && Rgtb (speed (animate c keys dt)) (maxSpeedOf (gear c) * 0.9)
            && (gear c <? 6)%Z); [reflexivity|].
  destruct (negb (keys "keyu"%string)
            && Rltb (speed (animate c keys dt)) (maxSpeedOf (gear c) * 0.4)
            && (1 <? gear c)%Z) eqn:Edown; [|reflexivity].
  exfalso.
  apply andb_prop in Edown. destruct Edown as [Edown E1]. apply Z.ltb_lt in E1.
  apply andb_prop in Edown. destruct Edown as [_ Eslow]. apply Rltb_spec in Eslow.
  rewrite Hs' in Eslow. destruct Hlow as [Hone|Hlow]; [lia|lra].
Qed.






(** The plateau is reached: with the gear key held the gearbox stays in first
    gear, and with [deltaTime = 10] the first frame already ends on the cap
    of 60, shown as 150; the second frame leaves speed and gear as they
    are. *)
Lemma plateau_with_gear_key_held :
  let keys := setKey throttleKeys "keyu" true in
  speed (frames 1 initialCar keys 10) = 150
  /\ speed (frames 2 initialCar keys 10) = 150
  /\ gear (frames 2 initialCar keys 10) = 1%Z
  /\ THREE.length (velocity (frames 2 initialCar keys 10)) = 60.
Proof.
  intros keys.
  assert (Hk : fullThrottle keys).
  { unfold fullThrottle, keys, throttleKeys. eval_keys. repeat split; lra. }
  assert (Hu : keys "keyu"%string = true) by reflexivity.
  assert (Hdt : 0 <= 10) by lra.
  assert (Hmax : maxSpeedOf 1 = 60) by (unfold maxSpeedOf; reflexivity).
  pose proof (initialCar_accelerating 10 Hdt) as H0.
  destruct (accelerating_frame _ 0 keys 10 H0 Hk Hdt) as (H1 & _).
  pose proof (accelerating_gear _ 0 keys 10 H0 Hk Hdt) as Hg1.
  rewrite Hu in Hg1. simpl in Hg1.
  change (animate initialCar keys 10) with (frames 1 initialCar keys 10) in *.
  assert (Hv1 : straightVelocity 10 0 (gear initialCar) = 60).
  { unfold straightVelocity. simpl gear. rewrite Hmax.
    unfold Rmin. destruct (Rle_dec _ _); lra. }
  rewrite Hv1 in H1.
  destruct (accelerating_frame _ 60 keys 10 H1 Hk Hdt) as (H2 & _).
  pose proof (accelerating_gear _ 60 keys 10 H1 Hk Hdt) as Hg2.
  rewrite Hu in Hg2. simpl in Hg2.
  change (animate (frames 1 initialCar keys 10) keys 10)
    with (frames 2 initialCar keys 10) in *.
  assert (Hv2 : straightVelocity 10 60 (gear (frames 1 initialCar keys 10)) = 60).
  { rewrite Hg1. unfold straightVelocity. rewrite Hmax.
    unfold Rmin. destruct (Rle_dec _ _); lra. }
  rewrite Hv2 in H2.
  destruct H1 as ((_ & _ & _ & _ & Hs1 & _) & _).
  destruct H2 as ((_ & Hvel2 & _ & _ & Hs2 & _) & _).
  rewrite Hs1, Hs2, Hvel2, length_along_z by lra.
  repeat split; try lra.
  transitivity (gear (frames 1 initialCar keys 10)); [exact Hg2|exact Hg1].
Qed.




(** * Further properties of the frame callback *)

(** ** The speed cap *)

Lemma drivenVelocity_capped (c : Car) (keys : Keys) (dt m : R) :
  index maxSpeedByGear (gear c) = Some m ->
  THREE.length (drivenVelocity c keys dt) <= m.
Proof.
  intros Hm. pose proof (index_maxSpeedByGear_nonneg _ _ Hm) as Hpos.
  unfold drivenVelocity. cbv zeta. rewrite Hm.
  set (v := THREE.multiplyScalar _ 0.98). clearbody v.
  destruct (Rgtb (THREE.length v) m) eqn:Hcap.
  - apply Rgtb_spec in Hcap.
    rewrite length_multiplyScalar, length_normalize, Rabs_right by lra. lra.
  - unfold Rgtb in Hcap. destruct (Rgt_dec (THREE.length v) m); [discriminate|lra].
Qed.

(** X1: whatever the keys, after a frame with [deltaTime >= 0] the magnitude
    of the velocity of a car in range is at most [maxSpeedByGear] of the gear
    the frame started in, and the telemetry speed is at most [2.5 * 350]. *)
Theorem velocity_within_gear_cap (c : Car) (keys : Keys) (dt : R) :
  inRange c -> 0 <= dt ->
  THREE.length (velocity (animate c keys dt)) <= maxSpeedOf (gear c)
  /\ 0 <= speed (animate c keys dt) <= 2.5 * 350.
Proof.
  intros [Hg Hh] Hdt.
  destruct (index_maxSpeedByGear (gear c) Hg) as [Hm Hmax].
  pose proof (drivenVelocity_capped c keys dt _ Hm) as Hd.
  pose proof (handbrakeAfter_range c keys dt Hh Hdt) as Hr.
  pose proof (length_nonneg (drivenVelocity c keys dt)) as Hp.
  assert (Hv : THREE.length (velocity (animate c keys dt)) <= maxSpeedOf (gear c)).
  { rewrite animate_velocity. destruct (Rgtb _ 0); [|exact Hd].
    rewrite length_multiplyScalar, Rabs_right by lra. nra. }
  split; [exact Hv|].
  rewrite animate_speed. pose proof (length_nonneg (velocity (animate c keys dt))). lra.
Qed.

Lemma velocity_within_gear_cap_witness :
  let c :=
    mkCar (THREE.mkVector3 188 0.5 0) (THREE.mkEuler 0 0 0) (THREE.mkVector3 30 0 40)
          (THREE.mkVector3 0 0 0) 125 1 TPP 0 0.5 in
  (inRange c /\ 0 <= 1 / 60)
  /\ THREE.length (velocity (animate c throttleKeys (1 / 60))) <= maxSpeedOf (gear c)
  /\ 0 <= speed (animate c throttleKeys (1 / 60)) <= 2.5 * 350.
Proof.
  cbv zeta.
  assert (Hc : inRange
                 (mkCar (THREE.mkVector3 188 0.5 0) (THREE.mkEuler 0 0 0)
                        (THREE.mkVector3 30 0 40) (THREE.mkVector3 0 0 0) 125 1 TPP 0 0.5))
    by (unfold inRange; simpl; split; [lia|lra]).
  assert (Hdt : 0 <= 1 / 60) by lra.
  split; [split; assumption|].
  exact (velocity_within_gear_cap _ throttleKeys (1 / 60) Hc Hdt).
Defined.

(** ** The engine speed *)

Lemma animate_speed_nonneg (c : Car) (keys : Keys) (dt : R) :
  0 <= speed (animate c keys dt).
Proof.
  rewrite animate_speed. pose proof (length_nonneg (velocity (animate c keys dt))). lra.
Qed.

(** X2: for a car whose gear is in the table (1 to 6), [rpm] after a frame is
    a number between 800 and 7000, whatever the keys and [deltaTime]; it is
    2500 when the frame shifted up and 4500 when it shifted down. *)
Theorem rpm_between_idle_and_limit (c : Car) (keys : Keys) (dt : R) :
  (1 <= gear c <= 6)%Z ->
  exists rpm,
    rpmAfter c keys dt = Some rpm
    /\ 800 <= rpm <= 7000
    /\ (gear (animate c keys dt) = (gear c + 1)%Z -> rpm = 2500)
    /\ (gear (animate c keys dt) = (gear c - 1)%Z -> rpm = 4500).
Proof.
  intros Hg.
  destruct (index_maxSpeedByGear (gear c) Hg) as [Hm Hmax].
  pose proof (animate_speed_nonneg c keys dt) as Hs.
  pose proof (animate_gear c keys dt) as Hgear. cbv zeta in Hgear.
  unfold rpmAfter. cbv zeta. rewrite Hm in *.
  destruct (negb (keys "keyu"%string)
            && gtU (speed (animate c keys dt)) (scaleU (Some (maxSpeedOf (gear c))) 0.9)
            && (gear c <? 6)%Z).
  - exists 2500. repeat split; try lra. intros E. lia.
  - destruct (negb (keys "keyu"%string)
              && ltU (speed (animate c keys dt)) (scaleU (Some (maxSpeedOf (gear c))) 0.4)
              && (1 <? gear c)%Z).
    + exists 4500. repeat split; try lra. intros E. lia.
    + rewrite Reqb_false by lra. eexists. split; [reflexivity|].
      assert (Hq : 0 <= speed (animate c keys dt) / maxSpeedOf (gear c)).
      { apply Rmult_le_pos; [exact Hs|]. left. apply Rinv_0_lt_compat. lra. }
      repeat split; try (intros E; lia);
        unfold Rmin; destruct (Rle_dec _ _); lra.
Qed.

Lemma rpm_between_idle_and_limit_witness :
  (1 <= gear initialCar <= 6)%Z
  /\ exists rpm,
       rpmAfter initialCar throttleKeys (1 / 60) = Some rpm
       /\ 800 <= rpm <= 7000
       /\ (gear (animate initialCar throttleKeys (1 / 60)) = (gear initialCar + 1)%Z
           -> rpm = 2500)
       /\ (gear (animate initialCar throttleKeys (1 / 60)) = (gear initialCar - 1)%Z
           -> rpm = 4500).
Proof.
  assert (Hg : (1 <= gear initialCar <= 6)%Z) by (simpl; lia).
  split; [exact Hg|].
  exact (rpm_between_idle_and_limit initialCar throttleKeys (1 / 60) Hg).
Defined.

(** ** The handbrake ramp *)

Lemma elapsed_nonneg (inputs : list (Keys * R)) :
  Forall (fun i => 0 <= snd i) inputs -> 0 <= elapsed inputs.
Proof.
  induction 1 as [|i inputs Hi _ IH]; simpl; lra.
Qed.

Lemma drive_handbrake_held (inputs : list (Keys * R)) (c : Car) :
  Forall (fun i => fst i "space"%string = true /\ 0 <= snd i) inputs ->
  handbrakeIntensity c <= 1 ->
  handbrakeIntensity (drive c inputs) = Rmin (handbrakeIntensity c + 3 * elapsed inputs) 1.
Proof.
  intros Hin. revert c. induction Hin as [|[k dt] inputs [Hk Hdt] Hin IH]; intros c Hc.
  - simpl. rewrite Rmin_left; lra.
  - simpl in Hk, Hdt.
    assert (Hrest : 0 <= elapsed inputs).
    { apply elapsed_nonneg. eapply Forall_impl; [|exact Hin]. intros i Hi. apply Hi. }
    change (drive c ((k, dt) :: inputs)) with (drive (animate c k dt) inputs).
    rewrite IH.
    + rewrite animate_handbrakeIntensity. unfold handbrakeAfter, inputHandbraking.
      simpl fst. simpl snd. rewrite Hk. simpl elapsed.
      unfold Rmin. repeat destruct (Rle_dec _ _); lra.
    + rewrite animate_handbrakeIntensity. unfold handbrakeAfter, inputHandbraking.
      simpl fst. rewrite Hk. apply Rmin_r.
Qed.

Lemma drive_handbrake_released (inputs : list (Keys * R)) (c : Car) :
  Forall (fun i => fst i "space"%string = false /\ 0 <= snd i) inputs ->
  0 <= handbrakeIntensity c ->
  handbrakeIntensity (drive c inputs) = Rmax (handbrakeIntensity c - 4 * elapsed inputs) 0.
Proof.
  intros Hin. revert c. induction Hin as [|[k dt] inputs [Hk Hdt] Hin IH]; intros c Hc.
  - simpl. rewrite Rmax_left; lra.
  - simpl in Hk, Hdt.
    assert (Hrest : 0 <= elapsed inputs).
    { apply elapsed_nonneg. eapply Forall_impl; [|exact Hin]. intros i Hi. apply Hi. }
    change (drive c ((k, dt) :: inputs)) with (drive (animate c k dt) inputs).
    rewrite IH.
    + rewrite animate_handbrakeIntensity. unfold handbrakeAfter, inputHandbraking.
      simpl fst. simpl snd. rewrite Hk. simpl elapsed.
      unfold Rmax. repeat destruct (Rle_dec _ _); lra.
    + rewrite animate_handbrakeIntensity. unfold handbrakeAfter, inputHandbraking.
      simpl fst. rewrite Hk. apply Rmax_r.
Qed.

(** X3: while the handbrake key is held, the handbrake intensity depends only
    on the time that has passed, not on how it is cut into frames nor on the
    other keys: it is [min(h + 3 * t, 1)], so from any intensity in [0,1] it is
    fully applied once a third of a second has passed. *)
Theorem handbrake_fully_applied_after_a_third (inputs : list (Keys * R)) (c : Car) :
  Forall (fun i => fst i "space"%string = true /\ 0 <= snd i) inputs ->
  0 <= handbrakeIntensity c <= 1 ->
  handbrakeIntensity (drive c inputs) = Rmin (handbrakeIntensity c + 3 * elapsed inputs) 1
  /\ (1 / 3 <= elapsed inputs -> handbrakeIntensity (drive c inputs) = 1).
Proof.
  intros Hin [H0 H1].
  pose proof (drive_handbrake_held inputs c Hin H1) as H. split; [exact H|].
  intros Ht. rewrite H. apply Rmin_right. lra.
Qed.

Lemma handbrake_fully_applied_after_a_third_witness :
  let held := setKey noKeys "space" true in
  let inputs := [(held, 1 / 60); (setKey held "keyw" true, 1 / 4); (held, 1 / 10)] in
  (Forall (fun i => fst i "space"%string = true /\ 0 <= snd i) inputs
   /\ 0 <= handbrakeIntensity initialCar <= 1)
  /\ handbrakeIntensity (drive initialCar inputs)
     = Rmin (handbrakeIntensity initialCar + 3 * elapsed inputs) 1
  /\ (1 / 3 <= elapsed inputs -> handbrakeIntensity (drive initialCar inputs) = 1).
Proof.
  cbv zeta.
  assert (Hin : Forall (fun i : Keys * R => fst i "space"%string = true /\ 0 <= snd i)
                  [(setKey noKeys "space" true, 1 / 60);
                   (setKey (setKey noKeys "space" true) "keyw" true, 1 / 4);
                   (setKey noKeys "space" true, 1 / 10)])
    by (repeat constructor; simpl; lra).
  assert (Hh : 0 <= handbrakeIntensity initialCar <= 1) by (simpl; lra).
  split; [split; assumption|].
  exact (handbrake_fully_applied_after_a_third _ initialCar Hin Hh).
Defined.

(** X4: while the handbrake key is up, the intensity is [max(h - 4 * t, 0)]
    after the time [t], however it is cut into frames: from any intensity in
    [0,1] the handbrake is fully released once a quarter of a second has
    passed. *)
Theorem handbrake_released_after_a_quarter (inputs : list (Keys * R)) (c : Car) :
  Forall (fun i => fst i "space"%string = false /\ 0 <= snd i) inputs ->
  0 <= handbrakeIntensity c <= 1 ->
  handbrakeIntensity (drive c inputs) = Rmax (handbrakeIntensity c - 4 * elapsed inputs) 0
  /\ (1 / 4 <= elapsed inputs -> handbrakeIntensity (drive c inputs) = 0).
Proof.
  intros Hin [H0 H1].
  pose proof (drive_handbrake_released inputs c Hin H0) as H. split; [exact H|].
  intros Ht. rewrite H. apply Rmax_right. lra.
Qed.

Lemma handbrake_released_after_a_quarter_witness :
  let c := mkCar (THREE.mkVector3 188 0.5 0) (THREE.mkEuler 0 0 0) (THREE.mkVector3 0 0 5)
                 (THREE.mkVector3 0 0 0) 12.5 1 TPP 0 1 in
  let inputs := [(noKeys, 1 / 5); (throttleKeys, 1 / 10)] in
  (Forall (fun i => fst i "space"%string = false /\ 0 <= snd i) inputs
   /\ 0 <= handbrakeIntensity c <= 1)
  /\ handbrakeIntensity (drive c inputs) = Rmax (handbrakeIntensity c - 4 * elapsed inputs) 0
  /\ (1 / 4 <= elapsed inputs -> handbrakeIntensity (drive c inputs) = 0).
Proof.
  cbv zeta.
  assert (Hin : Forall (fun i : Keys * R => fst i "space"%string = false /\ 0 <= snd i)
                  [(noKeys, 1 / 5); (throttleKeys, 1 / 10)])
    by (repeat constructor; simpl; lra).
  assert (Hh : 0 <= 1 <= 1) by lra.
  split; [split; [exact Hin|simpl; lra]|].
  exact (handbrake_released_after_a_quarter _
           (mkCar (THREE.mkVector3 188 0.5 0) (THREE.mkEuler 0 0 0) (THREE.mkVector3 0 0 5)
                  (THREE.mkVector3 0 0 0) 12.5 1 TPP 0 1) Hin Hh).
Defined.

(** ** The gear key and the key table *)

Lemma keyu_code : toLowerCase "KeyU" = "keyu"%string.
Proof. reflexivity. Qed.

Lemma handleKeyUpCar_gear (c : Car) :
  gear (handleKeyUpCar c "KeyU") = if (6 <=? gear c)%Z then 1%Z else (gear c + 1)%Z.
Proof. reflexivity. Qed.

Lemma gear_key_cycles (k : nat) (w : World) :
  (1 <= gear (car w) <= 6)%Z ->
  gear (car (run w (repeat (KeyUp "KeyU") k)))
  = ((gear (car w) - 1 + Z.of_nat k) mod 6 + 1)%Z.
Proof.
  revert w. induction k as [|k IH]; intros w Hg.
  - simpl. rewrite Z.add_0_r, Z.mod_small by lia. lia.
  - change (run w (repeat (KeyUp "KeyU") (S k)))
      with (run (handleKeyUp w "KeyU") (repeat (KeyUp "KeyU") k)).
    assert (Hnext : gear (car (handleKeyUp w "KeyU"))
                    = if (6 <=? gear (car w))%Z then 1%Z else (gear (car w) + 1)%Z)
      by reflexivity.
    rewrite IH; rewrite Hnext; destruct (6 <=? gear (car w))%Z eqn:E.
    + apply Z.leb_le in E. assert (E6 : gear (car w) = 6%Z) by lia. rewrite E6.
      replace (6 - 1 + Z.of_nat (S k))%Z with (1 - 1 + Z.of_nat k + 1 * 6)%Z by lia.
      now rewrite Z_mod_plus_full.
    + do 2 f_equal. lia.
    + lia.
    + apply Z.leb_gt in E. lia.
Qed.

(** X5: releasing the gear key steps through the gears in a cycle of six:
    from a gear [g] between 1 and 6, [k] releases lead to gear
    [(g - 1 + k) mod 6 + 1], and six releases give back the car as it was. *)
Theorem gear_key_cycle_of_six (k : nat) (w : World) :
  (1 <= gear (car w) <= 6)%Z ->
  gear (car (run w (repeat (KeyUp "KeyU") k)))
  = ((gear (car w) - 1 + Z.of_nat k) mod 6 + 1)%Z
  /\ car (run w (repeat (KeyUp "KeyU") 6)) = car w.
Proof.
  intros Hg. split; [now apply gear_key_cycles|].
  destruct w as [ks c]. destruct c as [p r v l s g m d h]. simpl in Hg.
  assert (H : g = 1%Z \/ g = 2%Z \/ g = 3%Z \/ g = 4%Z \/ g = 5%Z \/ g = 6%Z) by lia.
  destruct H as [->|[->|[->|[->|[->| ->]]]]]; reflexivity.
Qed.

Lemma gear_key_cycle_of_six_witness :
  (1 <= gear (car initialWorld) <= 6)%Z
  /\ gear (car (run initialWorld (repeat (KeyUp "KeyU") 8)))
     = ((gear (car initialWorld) - 1 + Z.of_nat 8) mod 6 + 1)%Z
  /\ car (run initialWorld (repeat (KeyUp "KeyU") 6)) = car initialWorld.
Proof.
  assert (Hg : (1 <= gear (car initialWorld) <= 6)%Z) by (simpl; lia).
  split; [exact Hg|].
  exact (gear_key_cycle_of_six 8 initialWorld Hg).
Defined.


Lemma step_keeps_key (w : World) (e : Event) (code : string) :
  leavesKey code e -> keys (step w e) (toLowerCase code) = keys w (toLowerCase code).
Proof.
  destruct e as [c|c|dt]; simpl; intros He; try reflexivity;
    unfold setKey; destruct (String.eqb_spec (toLowerCase code) (toLowerCase c));
    congruence.
Qed.

Lemma run_keeps_key (events : list Event) (w : World) (code : string) :
  Forall (leavesKey code) events ->
  keys (run w events) (toLowerCase code) = keys w (toLowerCase code).
Proof.
  intros Hev. revert w. induction Hev as [|e events He _ IH]; intros w.
  - reflexivity.
  - change (run w (e :: events)) with (run (step w e) events).
    rewrite IH. now apply step_keeps_key.
Qed.

(** X6: a key reads as held from its [keydown] until its own [keyup]: after
    [keydown] of a code its entry, under the lowercased code, is [true] and
    stays so through any frames and any events of other keys; after [keyup]
    it is [false] and stays so.  The casing of the code does not matter. *)
Theorem key_held_from_down_to_up (events : list Event) (w : World) (code : string) :
  Forall (leavesKey code) events ->
  keys (run (handleKeyDown w code) events) (toLowerCase code) = true
  /\ keys (run (handleKeyUp w code) events) (toLowerCase code) = false
  /\ keys (run (handleKeyUp (run (handleKeyDown w code) events) code) events)
          (toLowerCase code) = false.
Proof.
  intros Hev. rewrite !run_keeps_key by exact Hev.
  unfold handleKeyDown, handleKeyUp, setKey; simpl.
  rewrite String.eqb_refl. repeat split.
Qed.

Lemma key_held_from_down_to_up_witness :
  let events := [KeyDown "KeyA"; Frame (1 / 60); KeyUp "KeyA"; Frame (1 / 60)] in
  Forall (leavesKey "KeyW") events
  /\ keys (run (handleKeyDown initialWorld "KeyW") events) (toLowerCase "KeyW") = true
  /\ keys (run (handleKeyUp initialWorld "KeyW") events) (toLowerCase "KeyW") = false
  /\ keys (run (handleKeyUp (run (handleKeyDown initialWorld "KeyW") events) "KeyW") events)
          (toLowerCase "KeyW") = false.
Proof.
  cbv zeta.
  assert (Hev : Forall (leavesKey "KeyW")
                  [KeyDown "KeyA"; Frame (1 / 60); KeyUp "KeyA"; Frame (1 / 60)])
    by (repeat constructor; simpl; discriminate).
  split; [exact Hev|].
  exact (key_held_from_down_to_up _ initialWorld "KeyW" Hev).
Defined.

(** ** Brake and throttle together *)

Lemma inputThrottle_brake (keys : Keys) :
  keys "keys"%string || keys "arrowdown"%string = true -> inputThrottle keys = -0.5.
Proof. intros H. unfold inputThrottle. cbv zeta. rewrite H. reflexivity. Qed.

(** X7: when a brake key is down, the throttle keys count for nothing: the
    throttle value is [-0.5], and the frame is the one computed with the
    throttle keys released. *)
Theorem brake_overrides_throttle (c : Car) (keys : Keys) (dt : R) :
  keys "keys"%string || keys "arrowdown"%string = true ->
  inputThrottle keys = -0.5
  /\ inputThrottle (releaseThrottle keys) = -0.5
  /\ animate c keys dt = animate c (releaseThrottle keys) dt.
Proof.
  intros Hbrake.
  assert (Hbrake' : releaseThrottle keys "keys"%string
                    || releaseThrottle keys "arrowdown"%string = true) by exact Hbrake.
  pose proof (inputThrottle_brake keys Hbrake) as H1.
  pose proof (inputThrottle_brake (releaseThrottle keys) Hbrake') as H2.
  repeat split; try assumption.
  apply animate_keys_ext; try reflexivity.
  unfold inputAcceleration. cbv zeta. rewrite H1, H2. reflexivity.
Qed.

Lemma brake_overrides_throttle_witness :
  let keys := setKey (setKey noKeys "keyw" true) "keys" true in
  (keys "keyw"%string = true /\ keys "keys"%string || keys "arrowdown"%string = true)
  /\ inputThrottle keys = -0.5
  /\ inputThrottle (releaseThrottle keys) = -0.5
  /\ animate initialCar keys (1 / 60) = animate initialCar (releaseThrottle keys) (1 / 60).
Proof.
  cbv zeta. split; [split; reflexivity|].
  apply (brake_overrides_throttle initialCar
           (setKey (setKey noKeys "keyw" true) "keys" true) (1 / 60)).
  reflexivity.
Defined.

(** ** A car at rest *)

Lemma drivenVelocity_at_rest (c : Car) (keys : Keys) (dt : R) :
  velocity c = THREE.mkVector3 0 0 0 ->
  inputThrottle keys = 0 ->
  drivenVelocity c keys dt = THREE.mkVector3 0 0 0.
Proof.
  intros Hv Ht. unfold drivenVelocity. cbv zeta.
  rewrite (inputAcceleration_coasting keys Ht), Reqb_true, Hv by reflexivity.
  replace (THREE.multiplyScalar (THREE.mkVector3 0 0 0) 0.98) with (THREE.mkVector3 0 0 0)
    by (unfold THREE.multiplyScalar; simpl; f_equal; ring).
  destruct (index maxSpeedByGear (gear c)) as [m|] eqn:Hm; [|reflexivity].
  apply index_maxSpeedByGear_nonneg in Hm.
  rewrite Rgtb_false; [reflexivity|].
  replace (THREE.length (THREE.mkVector3 0 0 0)) with 0; [exact Hm|].
  symmetry. now apply length_along_z.
Qed.

(** X8: a car at rest that is given no throttle stays where it is, whatever
    the steering and handbrake keys and whatever [deltaTime]: position,
    heading and both velocities are unchanged and the telemetry speed is 0.
    Meanwhile, unless the gear key is held, the gearbox shifts down by one
    gear a frame until first gear. *)
Theorem car_at_rest_stays (c : Car) (keys : Keys) (dt : R) :
  velocity c = THREE.mkVector3 0 0 0 ->
  lateralVelocity c = THREE.mkVector3 0 0 0 ->
  inputThrottle keys = 0 ->
  let c' := animate c keys dt in
  position c' = position c
  /\ rotation c' = rotation c
  /\ velocity c' = THREE.mkVector3 0 0 0
  /\ lateralVelocity c' = THREE.mkVector3 0 0 0
  /\ speed c' = 0
  /\ ((1 <= gear c <= 6)%Z -> keys "keyu"%string = false ->
      gear c' = Z.max 1 (gear c - 1)).
Proof.
  intros Hv Hl Ht. cbv zeta.
  pose proof (drivenVelocity_at_rest c keys dt Hv Ht) as Hd.
  assert (Hlen : THREE.length (THREE.mkVector3 0 0 0) = 0) by (apply length_along_z; lra).
  assert (Hsteers : steers c keys dt = false).
  { unfold steers. rewrite Hd, Hlen, Rabs_R0, Rgtb_false by lra. reflexivity. }
  assert (Hslid : slidLateralVelocity c keys dt = THREE.mkVector3 0 0 0).
  { unfold slidLateralVelocity. cbv zeta. rewrite Hsteers. simpl andb. cbv iota.
    rewrite Hl. unfold THREE.multiplyScalar; simpl. f_equal; ring. }
  assert (Hvel : velocity (animate c keys dt) = THREE.mkVector3 0 0 0).
  { rewrite animate_velocity, Hd. destruct (Rgtb _ 0); [|reflexivity].
    unfold THREE.multiplyScalar; simpl. f_equal; ring. }
  assert (Hspeed : speed (animate c keys dt) = 0).
  { rewrite animate_speed, Hvel, Hlen. ring. }
  repeat split.
  - rewrite animate_position, Hd, Hslid. destruct (position c) as [px0 py0 pz0].
    unfold THREE.add, THREE.multiplyScalar; simpl. f_equal; ring.
  - rewrite animate_rotation. unfold rotationAfter. now rewrite Hsteers.
  - exact Hvel.
  - rewrite animate_lateralVelocity, Hslid. destruct (Rgtb _ 0); [|reflexivity].
    unfold THREE.multiplyScalar; simpl. f_equal; ring.
  - exact Hspeed.
  - intros Hg Hu. rewrite animate_gear. cbv zeta.
    destruct (index_maxSpeedByGear (gear c) Hg) as [Hm Hmax].
    rewrite Hspeed, Hm, Hu. simpl gtU. simpl ltU. simpl negb.
    rewrite Rgtb_false by lra. simpl andb.
    assert (Hlt : Rltb 0 (maxSpeedOf (gear c) * 0.4) = true) by (apply Rltb_spec; lra).
    rewrite Hlt. simpl andb.
    destruct (1 <? gear c)%Z eqn:E; [apply Z.ltb_lt in E|apply Z.ltb_ge in E]; lia.
Qed.

Lemma car_at_rest_stays_witness :
  let keys := setKey (setKey noKeys "keya" true) "space" true in
  let c := handleKeyUpCar (handleKeyUpCar initialCar "KeyU") "KeyU" in
  let c' := animate c keys (1 / 60) in
  (velocity c = THREE.mkVector3 0 0 0 /\ lateralVelocity c = THREE.mkVector3 0 0 0
   /\ inputThrottle keys = 0)
  /\ position c' = position c
  /\ rotation c' = rotation c
  /\ velocity c' = THREE.mkVector3 0 0 0
  /\ lateralVelocity c' = THREE.mkVector3 0 0 0
  /\ speed c' = 0
  /\ ((1 <= gear c <= 6)%Z -> keys "keyu"%string = false ->
      gear c' = Z.max 1 (gear c - 1)).
Proof.
  cbv zeta. split; [repeat split; reflexivity|].
  apply (car_at_rest_stays (handleKeyUpCar (handleKeyUpCar initialCar "KeyU") "KeyU")
           (setKey (setKey noKeys "keya" true) "space" true) (1 / 60)); reflexivity.
Defined.

(** ** Steering *)

Lemma inputSteering_values (keys : Keys) :
  inputSteering keys = 0 \/ inputSteering keys = 1 \/ inputSteering keys = -1.
Proof.
  unfold inputSteering. cbv zeta.
  destruct (keys "keyd"%string || keys "arrowright"%string); [now right; right|].
  destruct (keys "keya"%string || keys "arrowleft"%string); [now right; left|now left].
Qed.

(** X9: a frame turns the car by at most [1.8 * deltaTime] radians, about the
    vertical axis only, for any keys, when the handbrake intensity is in [0,1]
    and [deltaTime >= 0]; it does not turn it at all without a steering key or
    when the velocity after drag and cap is 0.1 or less. *)
Theorem yaw_rate_bounded (c : Car) (keys : Keys) (dt : R) :
  0 <= handbrakeIntensity c <= 1 -> 0 <= dt ->
  let c' := animate c keys dt in
  Rabs (THREE.ey (rotation c') - THREE.ey (rotation c)) <= 1.8 * dt
  /\ THREE.ex (rotation c') = THREE.ex (rotation c)
  /\ THREE.ez (rotation c') = THREE.ez (rotation c)
  /\ (inputSteering keys = 0 \/ THREE.length (drivenVelocity c keys dt) <= 0.1 ->
      rotation c' = rotation c).
Proof.
  intros Hh Hdt. cbv zeta.
  pose proof (handbrakeAfter_range c keys dt Hh Hdt) as Hr.
  pose proof (length_nonneg (drivenVelocity c keys dt)) as Hlen.
  rewrite animate_rotation. unfold rotationAfter.
  destruct (steers c keys dt) eqn:Hs; simpl.
  - repeat split.
    + set (k := Rmin (Rabs (THREE.length (drivenVelocity c keys dt)) / 30) 1).
      assert (Hk : 0 <= k <= 1).
      { subst k. rewrite Rabs_right by lra. unfold Rmin.
        destruct (Rle_dec _ _); lra. }
      set (h := handbrakeAfter c keys dt) in *.
      replace (THREE.ey (rotation c) + inputSteering keys * dt * k * (1 + h * 0.8)
               - THREE.ey (rotation c))
        with (inputSteering keys * (dt * k * (1 + h * 0.8))) by ring.
      assert (Hprod : 0 <= dt * k * (1 + h * 0.8) <= 1.8 * dt).
      { assert (0 <= dt * k <= dt) by nra. nra. }
      destruct (inputSteering_values keys) as [E|[E|E]]; rewrite E;
        unfold Rabs; destruct (Rcase_abs _); lra.
    + intros [E|E]; unfold steers in Hs.
      * rewrite E, Reqb_true in Hs by reflexivity. rewrite andb_false_r in Hs. discriminate.
      * rewrite Rabs_right, Rgtb_false in Hs by lra. discriminate.
  - rewrite Rminus_diag, Rabs_R0. repeat split; try reflexivity. lra.
Qed.

Lemma yaw_rate_bounded_witness :
  let c := mkCar (THREE.mkVector3 188 0.5 0) (THREE.mkEuler 0 0 0) (THREE.mkVector3 0 0 20)
                 (THREE.mkVector3 0 0 0) 50 1 TPP 0 0.5 in
  let keys := setKey (setKey noKeys "keya" true) "space" true in
  let c' := animate c keys (1 / 60) in
  (0 <= handbrakeIntensity c <= 1 /\ 0 <= 1 / 60)
  /\ Rabs (THREE.ey (rotation c') - THREE.ey (rotation c)) <= 1.8 * (1 / 60)
  /\ THREE.ex (rotation c') = THREE.ex (rotation c)
  /\ THREE.ez (rotation c') = THREE.ez (rotation c)
  /\ (inputSteering keys = 0 \/ THREE.length (drivenVelocity c keys (1 / 60)) <= 0.1 ->
      rotation c' = rotation c).
Proof.
  cbv zeta.
  assert (Hh : 0 <= 0.5 <= 1) by lra.
  assert (Hdt : 0 <= 1 / 60) by lra.
  split; [split; [simpl; lra|exact Hdt]|].
  exact (yaw_rate_bounded
           (mkCar (THREE.mkVector3 188 0.5 0) (THREE.mkEuler 0 0 0) (THREE.mkVector3 0 0 20)
                  (THREE.mkVector3 0 0 0) 50 1 TPP 0 0.5)
           (setKey (setKey noKeys "keya" true) "space" true) (1 / 60) Hh Hdt).
Defined.

(** ** Sliding *)

(** X10: on a frame without steering the sideways velocity keeps its direction
    and loses at least 30 per cent of its magnitude, for a handbrake intensity
    in [0,1] and [deltaTime >= 0]: [lateralGrip] is at most 0.7 and the extra
    handbrake damping at most 0.8. *)
Theorem lateral_velocity_decays (c : Car) (keys : Keys) (dt : R) :
  0 <= handbrakeIntensity c <= 1 -> 0 <= dt ->
  inputSteering keys = 0 ->
  exists k, 0 < k <= 0.7
    /\ lateralVelocity (animate c keys dt) = THREE.multiplyScalar (lateralVelocity c) k
    /\ THREE.length (lateralVelocity (animate c keys dt))
       <= 0.7 * THREE.length (lateralVelocity c).
Proof.
  intros Hh Hdt Hs.
  pose proof (handbrakeAfter_range c keys dt Hh Hdt) as Hr.
  pose proof (length_nonneg (lateralVelocity c)) as Hp.
  set (h := handbrakeAfter c keys dt) in *.
  assert (Hslid : slidLateralVelocity c keys dt
                  = THREE.multiplyScalar (lateralVelocity c) (0.7 - h * 0.6)).
  { unfold slidLateralVelocity. cbv zeta. rewrite steers_noSteering by exact Hs.
    reflexivity. }
  rewrite animate_lateralVelocity. fold h. rewrite Hslid.
  destruct (Rgtb h 0) eqn:Hb.
  - exists ((0.7 - h * 0.6) * (0.5 + h * 0.3)).
    assert (Hk : 0 < (0.7 - h * 0.6) * (0.5 + h * 0.3) <= 0.7) by nra.
    split; [exact Hk|]. split.
    + unfold THREE.multiplyScalar; simpl. f_equal; ring.
    + rewrite !length_multiplyScalar, !Rabs_right by lra. nra.
  - exists (0.7 - h * 0.6).
    assert (Hk : 0 < 0.7 - h * 0.6 <= 0.7) by lra.
    split; [exact Hk|]. split; [reflexivity|].
    rewrite length_multiplyScalar, Rabs_right by lra. nra.
Qed.

Lemma lateral_velocity_decays_witness :
  let c := mkCar (THREE.mkVector3 188 0.5 0) (THREE.mkEuler 0 0 0) (THREE.mkVector3 0 0 20)
                 (THREE.mkVector3 3 0 0) 50 1 TPP 0 0.5 in
  (0 <= handbrakeIntensity c <= 1 /\ 0 <= 1 / 60 /\ inputSteering throttleKeys = 0)
  /\ exists k, 0 < k <= 0.7
       /\ lateralVelocity (animate c throttleKeys (1 / 60))
          = THREE.multiplyScalar (lateralVelocity c) k
       /\ THREE.length (lateralVelocity (animate c throttleKeys (1 / 60)))
          <= 0.7 * THREE.length (lateralVelocity c).
Proof.
  cbv zeta.
  assert (Hh : 0 <= 0.5 <= 1) by lra.
  assert (Hdt : 0 <= 1 / 60) by lra.
  split; [split; [simpl; lra|split; [exact Hdt|reflexivity]]|].
  exact (lateral_velocity_decays
           (mkCar (THREE.mkVector3 188 0.5 0) (THREE.mkEuler 0 0 0) (THREE.mkVector3 0 0 20)
                  (THREE.mkVector3 3 0 0) 50 1 TPP 0 0.5)
           throttleKeys (1 / 60) Hh Hdt eq_refl).
Defined.

(** ** The camera key *)

Lemma toggleCamera_involutive (m : CameraMode) : toggleCamera (toggleCamera m) = m.
Proof. now destruct m. Qed.

(** X11: the camera key is not debounced: while it is held the mode flips on
    every frame, so after [n] frames the mode has changed exactly when [n] is
    odd; with the key up the mode never changes. *)
Theorem camera_mode_flips_every_frame (n : nat) (c : Car) (keys : Keys) (dt : R) :
  currentCameraMode (frames n c keys dt)
  = if keys "keyc"%string && Nat.odd n
    then toggleCamera (currentCameraMode c)
    else currentCameraMode c.
Proof.
  induction n as [|n IH].
  - simpl. now rewrite andb_false_r.
  - simpl frames. rewrite animate_currentCameraMode, IH, Nat.odd_succ, <- Nat.negb_odd.
    destruct (keys "keyc"%string); simpl; [|reflexivity].
    destruct (Nat.odd n); simpl; [apply toggleCamera_involutive|reflexivity].
Qed.

(** * The camera rig *)

Lemma setFromEuler_unit (e : THREE.Euler) : unitQuaternion (THREE.setFromEuler e).
Proof.
  unfold unitQuaternion, THREE.setFromEuler. cbv zeta. simpl.
  pose proof (cos2_sin2 (THREE.ex e / 2)) as H1.
  pose proof (cos2_sin2 (THREE.ey e / 2)) as H2.
  pose proof (cos2_sin2 (THREE.ez e / 2)) as H3.
  set (c1 := cos (THREE.ex e / 2)) in *. set (s1 := sin (THREE.ex e / 2)) in *.
  set (c2 := cos (THREE.ey e / 2)) in *. set (s2 := sin (THREE.ey e / 2)) in *.
  set (c3 := cos (THREE.ez e / 2)) in *. set (s3 := sin (THREE.ez e / 2)) in *.
  replace 1 with ((c1 * c1 + s1 * s1) * (c2 * c2 + s2 * s2) * (c3 * c3 + s3 * s3))
    by (rewrite H1, H2, H3; ring).
  ring.
Qed.

(** A unit quaternion turns a vector without changing its length. *)
Lemma applyQuaternion_length (v : THREE.Vector3) (q : THREE.Quaternion) :
  unitQuaternion q -> THREE.length (THREE.applyQuaternion v q) = THREE.length v.
Proof.
  unfold unitQuaternion. intros Hq.
  unfold THREE.length, THREE.applyQuaternion. cbv zeta. simpl. f_equal.
  destruct v as [vx vy vz], q as [a b c w]; simpl in *.
  set (tx := 2 * (b * vz - c * vy)). set (ty := 2 * (c * vx - a * vz)).
  set (tz := 2 * (a * vy - b * vx)).
  replace ((vx + w * tx + b * tz - c * ty) * (vx + w * tx + b * tz - c * ty)
           + (vy + w * ty + c * tx - a * tz) * (vy + w * ty + c * tx - a * tz)
           + (vz + w * tz + a * ty - b * tx) * (vz + w * tz + a * ty - b * tx))
    with (vx * vx + vy * vy + vz * vz
          + (a * a + b * b + c * c + w * w - 1) * (tx * tx + ty * ty + tz * tz))
    by (subst tx ty tz; ring).
  rewrite Hq. ring.
Qed.

Lemma distanceTo_add (p o : THREE.Vector3) : distanceTo (THREE.add p o) p = THREE.length o.
Proof.
  unfold distanceTo, THREE.length, THREE.add. cbv zeta. simpl. f_equal. ring.
Qed.

Lemma length_tppCamera : THREE.length tppCamera = 17.
Proof.
  unfold THREE.length, tppCamera; simpl.
  replace (0 * 0 + 8 * 8 + -15 * -15) with (17 * 17) by lra. apply sqrt_square. lra.
Qed.

Lemma length_fppCamera : THREE.length fppCamera = 2.5.
Proof.
  unfold THREE.length, fppCamera; simpl.
  replace (0 * 0 + 1.5 * 1.5 + 2 * 2) with (2.5 * 2.5) by lra. apply sqrt_square. lra.
Qed.

(** X12: the camera is rigidly attached to the car.  Wherever the car is and
    however it is turned, the third-person camera is 17 away from it and looks
    at it; the first-person camera is 2.5 away from it and looks at a point
    10 away from the car. *)
Theorem camera_rigidly_attached (c : Car) :
  match currentCameraMode c with
  | TPP =>
      distanceTo (cameraPosition (placeCamera c)) (position c) = 17
      /\ lookTarget (placeCamera c) = position c
  | FPP =>
      distanceTo (cameraPosition (placeCamera c)) (position c) = 2.5
      /\ distanceTo (lookTarget (placeCamera c)) (position c) = 10
  end.
Proof.
  pose proof (setFromEuler_unit (rotation c)) as Hq.
  unfold placeCamera, quaternion. destruct (currentCameraMode c); cbv zeta; simpl.
  - split; [|reflexivity].
    now rewrite distanceTo_add, applyQuaternion_length, length_tppCamera.
  - split; rewrite distanceTo_add, applyQuaternion_length by exact Hq.
    + apply length_fppCamera.
    + apply length_along_z. lra.
Qed.

Lemma run_planar (events : list Event) : planar (car (run initialWorld events)).
Proof.
  unfold run.
  assert (H0 : planar (car initialWorld)) by exact initialCar_planar.
  revert H0. generalize initialWorld as w.
  induction events as [|e events IH]; intros w Hw; simpl.
  - exact Hw.
  - apply IH. destruct e as [code|code|dt]; simpl.
    + exact Hw.
    + now apply handleKeyUpCar_planar.
    + now apply animate_planar.
Qed.

(** X13: in every state of a session the camera keeps its height: the
    third-person camera is at [y = 8.5], the first-person camera at [y = 2]
    and the point it looks at at [y = 0.5], the height of the car. *)
Theorem camera_height_constant (events : list Event) :
  let c := car (run initialWorld events) in
  match currentCameraMode c with
  | TPP => THREE.y (cameraPosition (placeCamera c)) = 8.5
  | FPP =>
      THREE.y (cameraPosition (placeCamera c)) = 2
      /\ THREE.y (lookTarget (placeCamera c)) = 0.5
  end.
Proof.
  cbv zeta. destruct (run_planar events) as (_ & _ & Hy & Hx & Hz).
  unfold placeCamera, quaternion.
  destruct (currentCameraMode _); cbv zeta; simpl cameraPosition; simpl lookTarget;
    rewrite ?y_add, ?applyQuaternion_yaw_y by assumption; rewrite Hy; simpl;
    try split; lra.
Qed.

(** * The AI cars *)

Lemma hypot_pos (x y : R) : x <> 0 \/ y <> 0 -> 0 < sqrt (x * x + y * y).
Proof. intros H. apply sqrt_lt_R0. destruct H; nra. Qed.

Lemma sqrt_1_plus_sqr_ratio (x y : R) :
  0 < x -> sqrt (1 + (y / x)²) = sqrt (x * x + y * y) / x.
Proof.
  intros Hx.
  replace (1 + (y / x)²) with ((x * x + y * y) * (/ x * / x))
    by (unfold Rsqr; field; lra).
  rewrite sqrt_mult_alt by nra.
  rewrite sqrt_square by (left; now apply Rinv_0_lt_compat).
  reflexivity.
Qed.

(** [atan2] gives the direction of the point [(x, y)]. *)
Lemma atan2_cos_sin (y x : R) :
  x <> 0 \/ y <> 0 ->
  cos (atan2 y x) = x / sqrt (x * x + y * y)
  /\ sin (atan2 y x) = y / sqrt (x * x + y * y).
Proof.
  intros Hxy. pose proof (hypot_pos x y Hxy) as Hh.
  unfold atan2. destruct (Rlt_dec 0 x) as [Hx|Hx].
  - rewrite cos_atan, sin_atan, sqrt_1_plus_sqr_ratio by exact Hx.
    split; field; lra.
  - destruct (Rlt_dec x 0) as [Hx'|Hx'].
    + assert (Hneg : sqrt (1 + (y / x)²) = sqrt (x * x + y * y) / (- x)).
      { replace (y / x) with ((- y) / (- x)) by (field; lra).
        replace (x * x + y * y) with ((- x) * (- x) + (- y) * (- y)) by ring.
        apply sqrt_1_plus_sqr_ratio. lra. }
      destruct (Rle_dec 0 y).
      * rewrite neg_cos, neg_sin, cos_atan, sin_atan, Hneg. split; field; lra.
      * rewrite cos_minus, sin_minus, cos_PI, sin_PI, cos_atan, sin_atan, Hneg.
        split; field; lra.
    + assert (E : x = 0) by lra. subst x.
      replace (0 * 0 + y * y) with (y * y) in * by ring.
      destruct (Rlt_dec 0 y) as [Hy|Hy].
      * rewrite cos_PI2, sin_PI2, sqrt_square by lra. split; field; lra.
      * destruct (Rlt_dec y 0) as [Hy'|Hy']; [|destruct Hxy; lra].
        rewrite cos_neg, sin_neg, cos_PI2, sin_PI2.
        replace (y * y) with ((- y) * (- y)) by ring.
        rewrite sqrt_square by lra. split; field; lra.
Qed.

Lemma aiLane_radius (index : nat) :
  100 + (if (index mod 2 =? 0)%nat then -8 else 8) = aiLane index.
Proof.
  unfold aiLane.
  destruct (Nat.even index) eqn:E.
  - apply Nat.even_spec in E. destruct E as [k ->].
    rewrite Nat.mul_comm, Nat.Div0.mod_mul. simpl. lra.
  - assert (Ho : Nat.odd index = true) by (rewrite <- Nat.negb_even, E; reflexivity).
    apply Nat.odd_spec in Ho. destruct Ho as [k ->].
    replace (2 * k + 1)%nat with (1 + k * 2)%nat by lia.
    rewrite Nat.Div0.mod_add. simpl. lra.
Qed.

Lemma aiLane_pos (index : nat) : 0 < aiLane index.
Proof. unfold aiLane. destruct (Nat.even index); lra. Qed.

Lemma moveAICar_position (index : nat) (c : AICar) (dt : R) :
  aiPosition (moveAICar index c dt)
  = THREE.mkVector3
      (cos (atan2 (THREE.z (aiPosition c)) (THREE.x (aiPosition c)) + aiRate index * dt)
       * aiLane index)
      (THREE.y (aiPosition c))
      (sin (atan2 (THREE.z (aiPosition c)) (THREE.x (aiPosition c)) + aiRate index * dt)
       * aiLane index).
Proof. unfold moveAICar. cbv zeta. rewrite aiLane_radius. reflexivity. Qed.

Lemma forEachFrom_nth (cars : list AICar) (k i : nat) (dt : R) :
  nth_error (forEachFrom k cars dt) i
  = option_map (fun c => moveAICar (k + i) c dt) (nth_error cars i).
Proof.
  revert k i. induction cars as [|c cars IH]; intros k i.
  - destruct i; reflexivity.
  - destruct i as [|i]; simpl.
    + now rewrite Nat.add_0_r.
    + rewrite IH. now rewrite Nat.add_succ_r.
Qed.

Lemma forEachFrom_length (cars : list AICar) (k : nat) (dt : R) :
  List.length (forEachFrom k cars dt) = List.length cars.
Proof. revert k. induction cars as [|c cars IH]; intros k; simpl; [|rewrite IH]; reflexivity. Qed.

(** X14: a frame puts every AI car on its lane, whatever its position before
    and whatever [deltaTime]: the cars with an even index at distance 92 from
    the vertical axis through the origin, those with an odd index at 108, at
    the height they had.  No car is added or dropped. *)
Theorem ai_cars_keep_their_lanes (cars : list AICar) (dt : R) (i : nat) (c : AICar) :
  nth_error cars i = Some c ->
  List.length (moveAICars cars dt) = List.length cars
  /\ exists c',
       nth_error (moveAICars cars dt) i = Some c'
       /\ distanceFromAxis (aiPosition c') = (if Nat.even i then 92 else 108)
       /\ THREE.y (aiPosition c') = THREE.y (aiPosition c).
Proof.
  intros Hc. unfold moveAICars. split; [apply forEachFrom_length|].
  exists (moveAICar i c dt). rewrite forEachFrom_nth, Hc. split; [reflexivity|].
  rewrite moveAICar_position. unfold distanceFromAxis; simpl. split; [|reflexivity].
  fold (aiLane i). pose proof (aiLane_pos i).
  apply sqrt_sum_squares_scaled; [apply cos2_sin2|lra].
Qed.

Lemma ai_cars_keep_their_lanes_witness :
  nth_error aiCars 1 = Some (newAICar (mkAICarStart 1.0 105))
  /\ List.length (moveAICars aiCars (1 / 60)) = List.length aiCars
  /\ exists c',
       nth_error (moveAICars aiCars (1 / 60)) 1 = Some c'
       /\ distanceFromAxis (aiPosition c') = (if Nat.even 1 then 92 else 108)
       /\ THREE.y (aiPosition c') = THREE.y (aiPosition (newAICar (mkAICarStart 1.0 105))).
Proof.
  split; [reflexivity|].
  exact (ai_cars_keep_their_lanes aiCars (1 / 60) 1 _ eq_refl).
Defined.

Lemma direction_nonzero (a r : R) : 0 < r -> cos a * r <> 0 \/ sin a * r <> 0.
Proof.
  intros Hr. pose proof (cos2_sin2 a) as H.
  destruct (Req_dec (cos a) 0) as [E|E].
  - right. rewrite E in H. intros Hs. apply Rmult_integral in Hs.
    destruct Hs as [Hs|Hs]; [rewrite Hs in H|]; lra.
  - left. intros Hc. apply Rmult_integral in Hc. destruct Hc; lra.
Qed.

(** Seen from the origin, a point at the angle [a] is found by [atan2] at an
    angle with the same cosine and sine, so that adding to it is adding to
    [a]. *)
Lemma atan2_direction (a r d : R) :
  0 < r ->
  cos (atan2 (sin a * r) (cos a * r) + d) = cos (a + d)
  /\ sin (atan2 (sin a * r) (cos a * r) + d) = sin (a + d).
Proof.
  intros Hr.
  destruct (atan2_cos_sin (sin a * r) (cos a * r) (direction_nonzero a r Hr)) as [Hc Hs].
  rewrite (sqrt_sum_squares_scaled (cos a) (sin a) r (cos2_sin2 a)) in Hc, Hs by lra.
  rewrite !cos_plus, !sin_plus, Hc, Hs. split; field; lra.
Qed.

Lemma moveAICar_on_circle (index : nat) (c : AICar) (a r dt : R) :
  0 < r ->
  THREE.x (aiPosition c) = cos a * r ->
  THREE.z (aiPosition c) = sin a * r ->
  aiPosition (moveAICar index c dt)
  = THREE.mkVector3 (cos (a + aiRate index * dt) * aiLane index)
                    (THREE.y (aiPosition c))
                    (sin (a + aiRate index * dt) * aiLane index).
Proof.
  intros Hr Hx Hz. rewrite moveAICar_position, Hx, Hz.
  destruct (atan2_direction a r (aiRate index * dt) Hr) as [-> ->]. reflexivity.
Qed.

Lemma moveAICar_frames_on_circle (index : nat) (dts : list R) (c : AICar) (a r : R) :
  dts <> [] ->
  0 < r ->
  THREE.x (aiPosition c) = cos a * r ->
  THREE.z (aiPosition c) = sin a * r ->
  aiPosition (fold_left (moveAICar index) dts c)
  = THREE.mkVector3 (cos (a + aiRate index * total dts) * aiLane index)
                    (THREE.y (aiPosition c))
                    (sin (a + aiRate index * total dts) * aiLane index).
Proof.
  revert c a r. induction dts as [|dt rest IH]; intros c a r Hne Hr Hx Hz; [congruence|].
  pose proof (moveAICar_on_circle index c a r dt Hr Hx Hz) as Hstep.
  destruct rest as [|dt' rest'].
  - change (fold_left (moveAICar index) [dt] c) with (moveAICar index c dt).
    change (total [dt]) with (dt + 0). rewrite Hstep. now rewrite Rplus_0_r.
  - change (fold_left (moveAICar index) (dt :: dt' :: rest') c)
      with (fold_left (moveAICar index) (dt' :: rest') (moveAICar index c dt)).
    rewrite (IH (moveAICar index c dt) (a + aiRate index * dt) (aiLane index));
      try discriminate; try apply aiLane_pos; try (rewrite Hstep; reflexivity).
    rewrite Hstep. simpl THREE.y.
    replace (a + aiRate index * dt + aiRate index * total (dt' :: rest'))
      with (a + aiRate index * total (dt :: dt' :: rest'))
      by (change (total (dt :: dt' :: rest')) with (dt + total (dt' :: rest')); ring).
    reflexivity.
Qed.

Lemma aiFrames_nth (dts : list R) (cars : list AICar) (i : nat) :
  nth_error (aiFrames cars dts) i
  = option_map (fun c => fold_left (moveAICar i) dts c) (nth_error cars i).
Proof.
  unfold aiFrames. revert cars. induction dts as [|dt dts IH]; intros cars.
  - simpl. now destruct (nth_error cars i).
  - simpl fold_left. rewrite IH. unfold moveAICars. rewrite forEachFrom_nth.
    now destruct (nth_error cars i).
Qed.

(** X15: the AI cars run on circles at a constant angular speed.  A car
    created at the angle [a] with a positive radius, at index [i] of the list,
    is, after any frames that take the time [t] together, at the angle
    [a + (0.4 + 0.1 * i) * t] on its lane, at the height 0.5, however the time
    is cut into frames. *)
Theorem ai_car_angle_advances_with_time
    (starts : list AICarStart) (dts : list R) (i : nat) (s : AICarStart) :
  nth_error starts i = Some s ->
  0 < startRadius s ->
  dts <> [] ->
  exists c,
    nth_error (aiFrames (map newAICar starts) dts) i = Some c
    /\ aiPosition c
       = THREE.mkVector3
           (cos (startAngle s + (0.4 + INR i * 0.1) * total dts) * aiLane i)
           0.5
           (sin (startAngle s + (0.4 + INR i * 0.1) * total dts) * aiLane i).
Proof.
  intros Hs Hr Hne. eexists. rewrite aiFrames_nth, nth_error_map, Hs. split; [reflexivity|].
  apply (moveAICar_frames_on_circle i dts (newAICar s) (startAngle s) (startRadius s));
    try assumption; reflexivity.
Qed.

Lemma ai_car_angle_advances_with_time_witness :
  let s := mkAICarStart 1.5 95 in
  let dts := [1 / 60; 1 / 30] in
  (nth_error aiCarPositions 2 = Some s /\ 0 < startRadius s /\ dts <> [])
  /\ exists c,
       nth_error (aiFrames (map newAICar aiCarPositions) dts) 2 = Some c
       /\ aiPosition c
          = THREE.mkVector3
              (cos (startAngle s + (0.4 + INR 2 * 0.1) * total dts) * aiLane 2)
              0.5
              (sin (startAngle s + (0.4 + INR 2 * 0.1) * total dts) * aiLane 2).
Proof.
  cbv zeta.
  assert (Hr : 0 < startRadius (mkAICarStart 1.5 95)) by (simpl; lra).
  assert (Hne : [1 / 60; 1 / 30] <> []) by discriminate.
  split; [split; [reflexivity|split; assumption]|].
  exact (ai_car_angle_advances_with_time aiCarPositions [1 / 60; 1 / 30] 2 _ eq_refl Hr Hne).
Defined.

Lemma moveAICar_twice (index : nat) (c : AICar) (dt1 dt2 : R) :
  aiPosition (moveAICar index (moveAICar index c dt1) dt2)
  = aiPosition (moveAICar index c (dt1 + dt2)).
Proof.
  rewrite (moveAICar_on_circle index (moveAICar index c dt1)
             (atan2 (THREE.z (aiPosition c)) (THREE.x (aiPosition c)) + aiRate index * dt1)
             (aiLane index) dt2 (aiLane_pos index))
    by (rewrite moveAICar_position; reflexivity).
  rewrite !moveAICar_position. simpl THREE.y.
  replace (atan2 (THREE.z (aiPosition c)) (THREE.x (aiPosition c)) + aiRate index * dt1
           + aiRate index * dt2)
    with (atan2 (THREE.z (aiPosition c)) (THREE.x (aiPosition c))
          + aiRate index * (dt1 + dt2)) by ring.
  reflexivity.
Qed.

(** X16: for the positions of the AI cars, two frames are one frame of the
    summed [deltaTime], wherever the cars are: recomputing the angle from the
    position with [atan2] loses nothing. *)
Theorem ai_frames_compose (cars : list AICar) (dt1 dt2 : R) :
  map aiPosition (moveAICars (moveAICars cars dt1) dt2)
  = map aiPosition (moveAICars cars (dt1 + dt2)).
Proof.
  unfold moveAICars. generalize 0%nat as k.
  induction cars as [|c cars IH]; intros k; cbn [forEachFrom map]; [reflexivity|].
  now rewrite moveAICar_twice, IH.
Qed.

(** * The shape of the track *)

Lemma angleAt_half_turn (i : nat) : angleAt (i + 16) = angleAt i + PI.
Proof.
  unfold angleAt, numPoints. rewrite plus_INR, !INR_IZR_INZ. simpl Z.of_nat. lra.
Qed.

Lemma radiusVariation_half_turn (a : R) : radiusVariation (a + PI) = radiusVariation a.
Proof.
  unfold radiusVariation.
  replace ((a + PI) * 2) with (a * 2 + 2 * INR 1 * PI) by (simpl; ring).
  replace ((a + PI) * 4) with (a * 4 + 2 * INR 2 * PI) by (simpl; ring).
  now rewrite sin_period, cos_period.
Qed.

Lemma trackPointAt_half_turn (i : nat) : trackPointAt (i + 16) = opposite (trackPointAt i).
Proof.
  unfold trackPointAt, opposite. cbv zeta. simpl px. simpl pz.
  rewrite angleAt_half_turn, radiusVariation_half_turn, neg_cos, neg_sin.
  f_equal; ring.
Qed.

Lemma opposite_involutive (p : TrackPoint) : opposite (opposite p) = p.
Proof. destruct p as [a b]. unfold opposite; simpl. f_equal; ring. Qed.

(** X17: the generated track is symmetric under a half turn about the origin:
    the point 16 places further along the loop (counting round the end) is
    the image through the origin of the point one started from. *)
Theorem track_symmetric_under_half_turn :
  Forall (fun i => at_ generateRandomTrack ((i + 16) mod 32)
                   = opposite (at_ generateRandomTrack i))
         (seq 0 32).
Proof.
  apply Forall_forall. intros i Hi. apply in_seq in Hi.
  assert (Hm : ((i + 16) mod 32 < numPoints)%nat)
    by (apply Nat.mod_upper_bound; discriminate).
  rewrite !generateRandomTrack_at by (unfold numPoints in *; lia).
  destruct (Nat.lt_ge_cases i 16) as [Hlt|Hge].
  - rewrite Nat.mod_small by lia. apply trackPointAt_half_turn.
  - replace ((i + 16) mod 32)%nat with (i - 16)%nat.
    + replace i with (i - 16 + 16)%nat at 2 by lia.
      now rewrite trackPointAt_half_turn, opposite_involutive.
    + replace (i + 16)%nat with (i - 16 + 1 * 32)%nat by lia.
      rewrite Nat.Div0.mod_add, Nat.mod_small; lia.
Qed.

(** ** Centre line *)

Lemma middle_of_boundaries (T : list TrackPoint) (i : nat) :
  (i < List.length T)%nat ->
  middle (at_ (outerPoints T) i) (at_ (innerPoints T) i) = at_ T i.
Proof.
  intros Hi. unfold middle. destruct (boundary_at T i Hi) as [-> ->].
  unfold outerPointAt, innerPointAt. cbv zeta. simpl px. simpl pz.
  destruct (at_ T i) as [a b]. simpl. unfold trackWidth. f_equal; lra.
Qed.

Lemma outerPoints_length (T : list TrackPoint) :
  List.length (outerPoints T) = List.length T.
Proof. unfold outerPoints. now rewrite length_map, length_seq. Qed.

Lemma innerPoints_length (T : list TrackPoint) :
  List.length (innerPoints T) = List.length T.
Proof. unfold innerPoints. now rewrite length_map, length_seq. Qed.

(** X18: the dashed centre line follows the centerline the boundaries were
    derived from, for any track: the middle between the outer and the inner
    point of an index is the track point of that index, and every dash joins
    the track point of an index that is a multiple of 4 to the next track
    point round the loop. *)
Theorem center_line_follows_track (T : list TrackPoint) :
  Forall (fun i => middle (at_ (outerPoints T) i) (at_ (innerPoints T) i) = at_ T i)
         (seq 0 (List.length T))
  /\ centerLine (outerPoints T) (innerPoints T)
     = map (fun i => (at_ T i, at_ T (wrapIndex (Z.of_nat i + 1) (List.length T))))
           (filter (fun i => (i mod 4 =? 0)%nat) (seq 0 (List.length T))).
Proof.
  split.
  - apply Forall_forall. intros i Hi. apply in_seq in Hi. apply middle_of_boundaries. lia.
  - unfold centerLine. rewrite outerPoints_length, innerPoints_length.
    assert (Hall : Forall (fun i => (i < List.length T)%nat) (seq 0 (List.length T))).
    { apply Forall_forall. intros i Hi. apply in_seq in Hi. lia. }
    induction Hall as [|i l Hi _ IH]; [reflexivity|].
    cbn [flat_map filter]. cbv zeta. destruct (i mod 4 =? 0)%nat.
    + cbn [map app]. rewrite IH. f_equal. f_equal.
      * now apply middle_of_boundaries.
      * apply middle_of_boundaries. apply wrapIndex_lt; lia.
    + simpl. exact IH.
Qed.

(** ** Which boundary is inside *)

Lemma sin_double_le (t : R) : 0 <= t <= PI -> sin (2 * t) <= 2 * sin t.
Proof.
  intros Ht. rewrite sin_2a.
  pose proof (sin_ge_0 t (proj1 Ht) (proj2 Ht)). pose proof (COS_bound t). nra.
Qed.

Lemma sin_PI16_lower_bound : 1 / 8 <= sin (PI / 16).
Proof.
  pose proof PI_RGT_0 as Hpi.
  pose proof (sin_double_le (PI / 4)) as H4.
  pose proof (sin_double_le (PI / 8)) as H8.
  pose proof (sin_double_le (PI / 16)) as H16.
  replace (2 * (PI / 4)) with (PI / 2) in H4 by lra.
  replace (2 * (PI / 8)) with (PI / 4) in H8 by lra.
  replace (2 * (PI / 16)) with (PI / 8) in H16 by lra.
  rewrite sin_PI2 in H4.
  assert (0 <= PI / 4 <= PI) by lra. assert (0 <= PI / 8 <= PI) by lra.
  assert (0 <= PI / 16 <= PI) by lra.
  specialize (H4 ltac:(assumption)). specialize (H8 ltac:(assumption)).
  specialize (H16 ltac:(assumption)). lra.
Qed.

Lemma neighbour_angles (i : nat) :
  (i < numPoints)%nat ->
  sin (angleAt (wrapIndex (Z.of_nat i + 1) numPoints) - angleAt i) = sin (PI / 16)
  /\ sin (angleAt i - angleAt (wrapIndex (Z.of_nat i - 1 + Z.of_nat numPoints) numPoints))
     = sin (PI / 16).
Proof.
  unfold numPoints. intros Hi.
  assert (Hshift : forall t, sin (t - 2 * PI) = sin t).
  { intros t. rewrite sin_minus, sin_2PI, cos_2PI. ring. }
  do 32 (destruct i as [|i];
         [ eval_wrap; unfold angleAt, numPoints; rewrite !INR_IZR_INZ; simpl Z.of_nat;
           split;
           first [ f_equal; lra
                 | rewrite <- (Hshift (PI / 16)); f_equal; lra ] | ]).
  lia.
Qed.

(** A point pushed by 30 along the unit normal [(-Dz, Dx) / L] of a direction
    [D] that turns counterclockwise about the origin fast enough comes nearer
    to the origin; pushed the other way it moves away. *)
Lemma offset_ordering (Px Pz Dx Dz L r : R) :
  0 < L -> L * L = Dx * Dx + Dz * Dz ->
  Px * Px + Pz * Pz = r * r -> 0 <= r ->
  15 * L < Px * Dz - Pz * Dx ->
  sqrt ((Px + - (Dz * (1 / L)) * 30) * (Px + - (Dz * (1 / L)) * 30)
        + (Pz + Dx * (1 / L) * 30) * (Pz + Dx * (1 / L) * 30)) < r
  /\ r < sqrt ((Px - - (Dz * (1 / L)) * 30) * (Px - - (Dz * (1 / L)) * 30)
               + (Pz - Dx * (1 / L) * 30) * (Pz - Dx * (1 / L) * 30)).
Proof.
  intros HL HLL HP Hr HC.
  set (u := 1 / L).
  assert (Hu : 0 < u) by (subst u; apply Rdiv_lt_0_compat; lra).
  assert (HuL : u * L = 1) by (subst u; field; lra).
  set (C := Px * Dz - Pz * Dx) in *.
  assert (HCu : 15 < C * u).
  { assert (15 * L * u < C * u) by (apply Rmult_lt_compat_r; assumption).
    replace (15 * L * u) with (15 * (u * L)) in H by ring. rewrite HuL in H. lra. }
  assert (Hn : u * u * (Dx * Dx + Dz * Dz) = 1).
  { rewrite <- HLL. replace (u * u * (L * L)) with ((u * L) * (u * L)) by ring.
    rewrite HuL. ring. }
  assert (Hout : (Px + - (Dz * u) * 30) * (Px + - (Dz * u) * 30)
                 + (Pz + Dx * u * 30) * (Pz + Dx * u * 30)
                 = r * r - 60 * (C * u) + 900).
  { replace ((Px + - (Dz * u) * 30) * (Px + - (Dz * u) * 30)
             + (Pz + Dx * u * 30) * (Pz + Dx * u * 30))
      with (Px * Px + Pz * Pz - 60 * (C * u) + 900 * (u * u * (Dx * Dx + Dz * Dz)))
      by (subst C; ring).
    rewrite HP, Hn. ring. }
  assert (Hin : (Px - - (Dz * u) * 30) * (Px - - (Dz * u) * 30)
                + (Pz - Dx * u * 30) * (Pz - Dx * u * 30)
                = r * r + 60 * (C * u) + 900).
  { replace ((Px - - (Dz * u) * 30) * (Px - - (Dz * u) * 30)
             + (Pz - Dx * u * 30) * (Pz - Dx * u * 30))
      with (Px * Px + Pz * Pz + 60 * (C * u) + 900 * (u * u * (Dx * Dx + Dz * Dz)))
      by (subst C; ring).
    rewrite HP, Hn. ring. }
  fold u. rewrite Hout, Hin.
  assert (Hpos : 0 <= r * r - 60 * (C * u) + 900)
    by (rewrite <- Hout; apply Rplus_le_le_0_compat; apply Rle_0_sqr).
  set (k := C * u) in *. clearbody k. split.
  - assert (H : sqrt (r * r - 60 * k + 900) < sqrt (r * r)).
    { apply sqrt_lt_1_alt. split; [exact Hpos|lra]. }
    now rewrite sqrt_square in H.
  - assert (H : sqrt (r * r) < sqrt (r * r + 60 * k + 900)).
    { apply sqrt_lt_1_alt. split; [nra|lra]. }
    now rewrite sqrt_square in H.
Qed.

(** Going round the track counterclockwise, the central difference at a point
    turns about the origin by more than 15 times its length. *)
Lemma turning_fast_enough (c s cn sn cp sp r rn rp sigma L : R) :
  157 <= r -> 157 <= rn -> 157 <= rp ->
  sn * c - cn * s = sigma -> s * cp - c * sp = sigma -> 1 / 8 <= sigma ->
  0 <= L ->
  L * L = (cn * rn - cp * rp) * (cn * rn - cp * rp)
          + (sn * rn - sp * rp) * (sn * rn - sp * rp) ->
  cn * cn + sn * sn = 1 -> cp * cp + sp * sp = 1 ->
  -1 <= cn * cp + sn * sp ->
  15 * L < c * r * (sn * rn - sp * rp) - s * r * (cn * rn - cp * rp).
Proof.
  intros Hr Hrn Hrp H1 H2 Hs HL HLL Hn Hp Hcos.
  replace (c * r * (sn * rn - sp * rp) - s * r * (cn * rn - cp * rp))
    with (r * rn * (sn * c - cn * s) + r * rp * (s * cp - c * sp)) by ring.
  rewrite H1, H2.
  assert (Hsq : L * L <= (rn + rp) * (rn + rp)).
  { rewrite HLL.
    replace ((cn * rn - cp * rp) * (cn * rn - cp * rp)
             + (sn * rn - sp * rp) * (sn * rn - sp * rp))
      with ((cn * cn + sn * sn) * (rn * rn) + (cp * cp + sp * sp) * (rp * rp)
            - 2 * (rn * rp) * (cn * cp + sn * sp)) by ring.
    rewrite Hn, Hp.
    assert (0 <= rn * rp) by nra.
    assert (0 <= rn * rp * (1 + (cn * cp + sn * sp))) by (apply Rmult_le_pos; lra).
    lra. }
  assert (Hle : L <= rn + rp) by nra.
  assert (Hrs : 157 / 8 <= r * sigma) by nra.
  assert (Hsum : 0 < rn + rp) by lra.
  replace (r * rn * sigma + r * rp * sigma) with (r * sigma * (rn + rp)) by ring.
  assert (157 / 8 * (rn + rp) <= r * sigma * (rn + rp))
    by (apply Rmult_le_compat_r; lra).
  lra.
Qed.

(** X19: of the two boundaries of the generated track, the one the page calls
    outer is the one nearer the origin: at every index the outer point is
    nearer the origin than the track point and the inner point is farther. *)
Theorem outer_boundary_is_inside :
  let T := generateRandomTrack in
  Forall (fun i =>
            distanceFromOrigin (at_ (outerPoints T) i) < distanceFromOrigin (at_ T i)
            /\ distanceFromOrigin (at_ T i) < distanceFromOrigin (at_ (innerPoints T) i))
         (seq 0 (List.length T)).
Proof.
  intros T. apply Forall_forall. intros i Hi. apply in_seq in Hi. destruct Hi as [_ Hi].
  rewrite Nat.add_0_l in Hi. destruct (boundary_at T i Hi) as [-> ->]. subst T.
  rewrite generateRandomTrack_length in Hi.
  assert (Hn : (0 < numPoints)%nat) by (unfold numPoints; lia).
  pose proof (tangent_nonzero i Hi) as HL. cbv zeta in HL.
  unfold outerPointAt, innerPointAt, perpendicularAt. cbv zeta.
  rewrite generateRandomTrack_length in *.
  rewrite !generateRandomTrack_at in * by (try apply wrapIndex_lt; lia).
  destruct (neighbour_angles i Hi) as [Hnext Hprev].
  set (n := wrapIndex (Z.of_nat i + 1) numPoints) in *.
  set (p := wrapIndex (Z.of_nat i - 1 + Z.of_nat numPoints) numPoints) in *.
  rewrite V2_normalize_components by exact HL.
  set (L := THREE.V2.length _) in *.
  assert (HL0 : 0 <= L) by (subst L; apply sqrt_pos).
  assert (HLL : L * L = (px (trackPointAt n) - px (trackPointAt p))
                        * (px (trackPointAt n) - px (trackPointAt p))
                        + (pz (trackPointAt n) - pz (trackPointAt p))
                          * (pz (trackPointAt n) - pz (trackPointAt p))).
  { subst L. unfold THREE.V2.length. simpl THREE.x2. simpl THREE.y2. apply sqrt_sqrt.
    apply Rplus_le_le_0_compat; apply Rle_0_sqr. }
  clearbody L.
  pose proof (radiusVariation_bounds (angleAt i)) as Hr.
  pose proof (radiusVariation_bounds (angleAt n)) as Hrn.
  pose proof (radiusVariation_bounds (angleAt p)) as Hrp.
  pose proof (distanceFromOrigin_trackPointAt i) as Hdist.
  rewrite Hdist. unfold distanceFromOrigin in *. unfold trackWidth.
  simpl THREE.x2. simpl THREE.y2. simpl px. simpl pz.
  replace (60 / 2) with 30 by lra.
  rewrite sin_minus in Hnext, Hprev.
  unfold trackPointAt in HLL. simpl px in HLL. simpl pz in HLL.
  apply offset_ordering.
  - lra.
  - exact HLL.
  - pose proof (cos2_sin2 (angleAt i)). 
    replace (cos (angleAt i) * radiusVariation (angleAt i)
             * (cos (angleAt i) * radiusVariation (angleAt i))
             + sin (angleAt i) * radiusVariation (angleAt i)
               * (sin (angleAt i) * radiusVariation (angleAt i)))
      with ((cos (angleAt i) * cos (angleAt i) + sin (angleAt i) * sin (angleAt i))
            * (radiusVariation (angleAt i) * radiusVariation (angleAt i))) by ring.
    rewrite H. ring.
  - lra.
  - apply (turning_fast_enough _ _ _ _ _ _ _ _ _ (sin (PI / 16))); try lra;
      try apply cos2_sin2; try apply sin_PI16_lower_bound; try exact HLL.
    pose proof (COS_bound (angleAt n - angleAt p)) as Hc. rewrite cos_minus in Hc. lra.
Qed.

(** * Turning about the vertical axis *)

(** What [applyQuaternion] does with the quaternion of a rotation that has
    only a [y] component. *)
Lemma applyQuaternion_yaw (v : THREE.Vector3) (e : THREE.Euler) :
  THREE.ex e = 0 -> THREE.ez e = 0 ->
  THREE.applyQuaternion v (THREE.setFromEuler e)
  = THREE.mkVector3 (THREE.x v * cos (THREE.ey e) + THREE.z v * sin (THREE.ey e))
                    (THREE.y v)
                    (THREE.z v * cos (THREE.ey e) - THREE.x v * sin (THREE.ey e)).
Proof.
  intros Hx Hz. unfold THREE.applyQuaternion, THREE.setFromEuler. cbv zeta. simpl.
  rewrite Hx, Hz. replace (0 / 2) with 0 by lra. rewrite sin_0, cos_0.
  assert (Hc : cos (THREE.ey e) = 1 - 2 * sin (THREE.ey e / 2) * sin (THREE.ey e / 2))
    by (rewrite <- cos_2a_sin; f_equal; field).
  assert (Hs : sin (THREE.ey e) = 2 * sin (THREE.ey e / 2) * cos (THREE.ey e / 2))
    by (rewrite <- sin_2a; f_equal; field).
  rewrite Hc, Hs. f_equal; ring.
Qed.

(** X20: the engine pushes along the heading, and drag and cap only scale.
    For a car turned about the vertical axis only, by [yaw], the velocity
    after engine force, drag and speed cap is the old velocity plus
    [engineForce * deltaTime] times [(sin yaw, 0, cos yaw)], scaled by a
    factor between 0 and 0.98. *)
Theorem engine_pushes_along_heading (c : Car) (keys : Keys) (dt : R) :
  THREE.ex (rotation c) = 0 -> THREE.ez (rotation c) = 0 ->
  let yaw := THREE.ey (rotation c) in
  let push := engineForce (inputAcceleration keys) (gear c) * dt in
  exists k, 0 <= k <= 0.98
    /\ drivenVelocity c keys dt
       = THREE.multiplyScalar
           (THREE.add (velocity c)
                      (THREE.multiplyScalar (THREE.mkVector3 (sin yaw) 0 (cos yaw)) push))
           k.
Proof.
  intros Hx Hz yaw push.
  set (pushed := THREE.add (velocity c)
                   (THREE.multiplyScalar (THREE.mkVector3 (sin yaw) 0 (cos yaw)) push)).
  assert (Hv : (if Reqb (inputAcceleration keys) 0 then velocity c
                else THREE.add (velocity c)
                       (THREE.multiplyScalar
                          (THREE.applyQuaternion (THREE.mkVector3 0 0 1) (quaternion c))
                          (engineForce (inputAcceleration keys) (gear c) * dt)))
               = pushed).
  { subst pushed push. unfold Reqb. destruct (Req_dec_T (inputAcceleration keys) 0) as [E|E].
    - rewrite E. unfold engineForce, THREE.add, THREE.multiplyScalar; simpl.
      destruct (velocity c) as [a b d]; simpl. f_equal; ring.
    - unfold quaternion. rewrite applyQuaternion_yaw by assumption. fold yaw.
      unfold THREE.add, THREE.multiplyScalar; simpl. f_equal; ring. }
  unfold drivenVelocity. cbv zeta. rewrite Hv. clearbody pushed.
  assert (Hplain : THREE.multiplyScalar pushed 0.98 = THREE.multiplyScalar pushed 0.98)
    by reflexivity.
  destruct (index maxSpeedByGear (gear c)) as [m|] eqn:Hm;
    [|exists 0.98; split; [lra|reflexivity]].
  destruct (Rgtb _ m) eqn:Hcap; [|exists 0.98; split; [lra|reflexivity]].
  apply Rgtb_spec in Hcap. apply index_maxSpeedByGear_nonneg in Hm.
  set (len := THREE.length (THREE.multiplyScalar pushed 0.98)) in *.
  assert (Hlen : 0 < len) by lra.
  exists (0.98 * (1 / len) * m). split.
  - assert (Hq : 0 <= 1 / len * m <= 1).
    { split.
      - apply Rmult_le_pos; [|exact Hm]. left. apply Rdiv_lt_0_compat; lra.
      - apply Rmult_le_reg_l with len; [exact Hlen|]. field_simplify; lra. }
    nra.
  - unfold THREE.normalize, THREE.or1. fold len.
    destruct (Req_dec_T len 0); [lra|].
    unfold THREE.divideScalar, THREE.multiplyScalar; simpl. f_equal; ring.
Qed.

Lemma engine_pushes_along_heading_witness :
  let c := mkCar (THREE.mkVector3 188 0.5 0) (THREE.mkEuler 0 1 0) (THREE.mkVector3 3 0 4)
                 (THREE.mkVector3 0 0 0) 12.5 2 TPP 0 0 in
  let yaw := THREE.ey (rotation c) in
  let push := engineForce (inputAcceleration throttleKeys) (gear c) * (1 / 60) in
  (THREE.ex (rotation c) = 0 /\ THREE.ez (rotation c) = 0)
  /\ exists k, 0 <= k <= 0.98
       /\ drivenVelocity c throttleKeys (1 / 60)
          = THREE.multiplyScalar
              (THREE.add (velocity c)
                         (THREE.multiplyScalar (THREE.mkVector3 (sin yaw) 0 (cos yaw)) push))
              k.
Proof.
  cbv zeta. split; [split; reflexivity|].
  exact (engine_pushes_along_heading
           (mkCar (THREE.mkVector3 188 0.5 0) (THREE.mkEuler 0 1 0) (THREE.mkVector3 3 0 4)
                  (THREE.mkVector3 0 0 0) 12.5 2 TPP 0 0)
           throttleKeys (1 / 60) eq_refl eq_refl).
Defined.

(** * The walls *)

Lemma localToWorld_x_axis (p : THREE.Vector3) (angle l : R) :
  localToWorld p angle (THREE.mkVector3 l 0 0)
  = THREE.mkVector3 (THREE.x p + l * cos angle) (THREE.y p) (THREE.z p - l * sin angle).
Proof.
  unfold localToWorld. rewrite applyQuaternion_yaw by reflexivity.
  unfold THREE.add; simpl. f_equal; ring.
Qed.

(** X21: a wall does not lie along the segment it is built for but along
    the other diagonal of the rectangle that the segment spans: the ends of
    its box are at [(next.x, 2, current.z)] and [(current.x, 2, next.z)], for
    any two distinct points; its length is the length of the segment. *)
Theorem wall_lies_on_other_diagonal (current next : TrackPoint) :
  px next <> px current \/ pz next <> pz current ->
  wallEnds (wallBetween current next)
  = (THREE.mkVector3 (px next) 2 (pz current), THREE.mkVector3 (px current) 2 (pz next))
  /\ wallLength (wallBetween current next) = distance next current.
Proof.
  intros Hne.
  set (dx := px next - px current). set (dz := pz next - pz current).
  assert (Hd : dx <> 0 \/ dz <> 0) by (subst dx dz; destruct Hne; [left|right]; lra).
  pose proof (hypot_pos dx dz Hd) as HL.
  destruct (atan2_cos_sin dz dx Hd) as [Hc Hs].
  assert (Hlen : wallLength (wallBetween current next) = sqrt (dx * dx + dz * dz)).
  { unfold wallBetween. cbv zeta. simpl wallLength. fold dx dz. f_equal. ring. }
  split; [|rewrite Hlen; reflexivity].
  unfold wallEnds. rewrite !localToWorld_x_axis, Hlen.
  unfold wallBetween. cbv zeta. simpl wallRotationY. simpl wallPosition. fold dx dz.
  rewrite Hc, Hs. set (L := sqrt (dx * dx + dz * dz)) in *. simpl.
  f_equal; f_equal; subst dx dz; field; lra.
Qed.

Lemma wall_lies_on_other_diagonal_witness :
  let current := mkPoint 0 0 in
  let next := mkPoint 3 4 in
  (px next <> px current \/ pz next <> pz current)
  /\ wallEnds (wallBetween current next)
     = (THREE.mkVector3 (px next) 2 (pz current), THREE.mkVector3 (px current) 2 (pz next))
  /\ wallLength (wallBetween current next) = distance next current.
Proof.
  cbv zeta.
  assert (H : px (mkPoint 3 4) <> px (mkPoint 0 0) \/ pz (mkPoint 3 4) <> pz (mkPoint 0 0))
    by (left; simpl; lra).
  split; [exact H|].
  exact (wall_lies_on_other_diagonal (mkPoint 0 0) (mkPoint 3 4) H).
Defined.

(** * The file chosen for the car model *)

Lemma toLowerCase_append (s t : string) :
  toLowerCase (s ++ t) = (toLowerCase s ++ toLowerCase t)%string.
Proof. induction s as [|c s IH]; simpl; [|rewrite IH]; reflexivity. Qed.

Lemma toLowerCase_length (s : string) : String.length (toLowerCase s) = String.length s.
Proof. induction s as [|c s IH]; simpl; [|rewrite IH]; reflexivity. Qed.

Lemma toLowerCase_substring (s : string) (n m : nat) :
  toLowerCase (substring n m s) = substring n m (toLowerCase s).
Proof.
  revert n m. induction s as [|c s IH]; intros n m.
  - destruct n, m; reflexivity.
  - destruct n as [|n]; [destruct m as [|m]|]; simpl; rewrite ?IH; reflexivity.
Qed.

Lemma string_length_append (s t : string) :
  String.length (s ++ t) = (String.length s + String.length t)%nat.
Proof. induction s as [|c s IH]; simpl; [|rewrite IH]; reflexivity. Qed.

Lemma substring_all (t : string) : substring 0 (String.length t) t = t.
Proof. induction t as [|c t IH]; simpl; [|rewrite IH]; reflexivity. Qed.

Lemma substring_after (s t : string) :
  substring (String.length s) (String.length t) (s ++ t) = t.
Proof. induction s as [|c s IH]; simpl; [apply substring_all|exact IH]. Qed.

Lemma substring_split (s : string) (k : nat) :
  (k <= String.length s)%nat ->
  s = (substring 0 k s ++ substring k (String.length s - k) s)%string.
Proof.
  revert k. induction s as [|c s IH]; intros k Hk.
  - destruct k; [reflexivity|simpl in Hk; lia].
  - destruct k as [|k].
    + simpl. now rewrite substring_all.
    + simpl in Hk. simpl. rewrite <- IH by lia. reflexivity.
Qed.

Lemma endsWith_append (s t : string) : endsWith (s ++ t) t = true.
Proof.
  unfold endsWith. cbv zeta. rewrite string_length_append.
  replace (String.length s + String.length t - String.length t)%nat
    with (String.length s) by lia.
  rewrite substring_after, String.eqb_refl, andb_true_r. apply Nat.leb_le. lia.
Qed.

(** X22: a chosen file is taken for a car model exactly when its name ends in
    [.glb] in some casing, whatever comes before (nothing will do); without a
    file the upload is refused. *)
Theorem glb_extension_in_any_casing (name : string) :
  acceptsFile None = false
  /\ (acceptsFile (Some name) = true
      <-> exists base ext, name = (base ++ ext)%string /\ toLowerCase ext = ".glb"%string).
Proof.
  split; [reflexivity|]. unfold acceptsFile. split.
  - unfold endsWith. cbv zeta. rewrite toLowerCase_length. intros H.
    apply andb_prop in H. destruct H as [Hlen Heq].
    apply Nat.leb_le in Hlen. apply String.eqb_eq in Heq.
    change (String.length ".glb") with 4%nat in *.
    exists (substring 0 (String.length name - 4) name),
           (substring (String.length name - 4) 4 name).
    split.
    + pose proof (substring_split name (String.length name - 4)) as Hsp.
      replace (String.length name - (String.length name - 4))%nat with 4%nat in Hsp by lia.
      apply Hsp. lia.
    + now rewrite toLowerCase_substring.
  - intros (base & ext & -> & Hext).
    rewrite toLowerCase_append, Hext. apply endsWith_append.
Qed.

(** * The telemetry *)

Lemma mathRound_near (a : R) : a - 0.5 < IZR (mathRound a) <= a + 0.5.
Proof.
  unfold mathRound. destruct (base_Int_part (a + 0.5)) as [H1 H2]. lra.
Qed.

(** X23: the speedometer.  After a frame with [deltaTime >= 0] of a car in
    range, the speed shown is a whole number between 0 and 875 within a half
    of the telemetry speed, and the gear shown is between 1 and 6.  The
    needle stays between -135 and 135 degrees and rests on 135 from 350 on,
    so it cannot show the speeds between 350 and 875. *)
Theorem speedometer_range (c : Car) (keys : Keys) (dt : R) :
  inRange c -> 0 <= dt ->
  let g := telemetry c keys dt in
  (0 <= HUD.speed g <= 875)%Z
  /\ Rabs (IZR (HUD.speed g) - speed (animate c keys dt)) <= 0.5
  /\ (1 <= HUD.gear g <= 6)%Z
  /\ -135 <= needleAngle (HUD.speed g) <= 135
  /\ ((350 <= HUD.speed g)%Z -> needleAngle (HUD.speed g) = 135).
Proof.
  intros Hc Hdt. cbv zeta. unfold telemetry. cbv zeta. simpl HUD.speed. simpl HUD.gear.
  assert (Hs : 0 <= speed (animate c keys dt) <= 875).
  { assert (Hcap : THREE.length (velocity (animate c keys dt)) <= maxSpeedOf (gear c)).
    { destruct Hc as [Hg Hh].
      destruct (index_maxSpeedByGear (gear c) Hg) as [Hm Hmax].
      pose proof (drivenVelocity_capped c keys dt _ Hm) as Hd.
      pose proof (handbrakeAfter_range c keys dt Hh Hdt) as Hr.
      pose proof (length_nonneg (drivenVelocity c keys dt)) as Hp.
      rewrite animate_velocity. destruct (Rgtb _ 0); [|exact Hd].
      rewrite length_multiplyScalar, Rabs_right by lra. nra. }
    destruct (index_maxSpeedByGear (gear c) (proj1 Hc)) as [_ Hmax].
    pose proof (length_nonneg (velocity (animate c keys dt))).
    rewrite animate_speed. lra. }
  pose proof (mathRound_near (speed (animate c keys dt))) as Hround.
  set (s := mathRound (speed (animate c keys dt))) in *.
  assert (Hz : (0 <= s <= 875)%Z).
  { split.
    - assert (H : (-1 < s)%Z) by (apply lt_IZR; lra). lia.
    - assert (H : (s < 876)%Z) by (apply lt_IZR; lra). lia. }
  assert (Hz0 : 0 <= IZR s) by (apply IZR_le; lia).
  split; [exact Hz|].
  split; [unfold Rabs; destruct (Rcase_abs _); lra|].
  split; [apply animate_gear_range, Hc|].
  split.
  - unfold needleAngle, Rmin. destruct (Rle_dec _ _); lra.
  - intros H350. apply IZR_le in H350. unfold needleAngle. apply Rmin_right. lra.
Qed.

Lemma speedometer_range_witness :
  let g := telemetry initialCar throttleKeys (1 / 60) in
  (inRange initialCar /\ 0 <= 1 / 60)
  /\ (0 <= HUD.speed g <= 875)%Z
  /\ Rabs (IZR (HUD.speed g) - speed (animate initialCar throttleKeys (1 / 60))) <= 0.5
  /\ (1 <= HUD.gear g <= 6)%Z
  /\ -135 <= needleAngle (HUD.speed g) <= 135
  /\ ((350 <= HUD.speed g)%Z -> needleAngle (HUD.speed g) = 135).
Proof.
  cbv zeta.
  assert (Hdt : 0 <= 1 / 60) by lra.
  split; [split; [exact initialCar_inRange|exact Hdt]|].
  exact (speedometer_range initialCar throttleKeys (1 / 60) initialCar_inRange Hdt).
Defined.

(** X24: the badges of the HUD, read off the keys.  ACCELERATING is shown
    exactly when a throttle key is down and no brake key is; BOOST exactly when
    moreover a shift key is down; BRAKING whenever a brake key is down, with or
    without boost. *)
Theorem hud_badges_follow_keys (c : Car) (keys : Keys) (dt : R) :
  let g := telemetry c keys dt in
  let throttle := keys "keyw"%string || keys "arrowup"%string in
  let brake := keys "keys"%string || keys "arrowdown"%string in
  HUD.isAccelerating g = throttle && negb brake
  /\ HUD.isBoosting g = inputBoost keys && (throttle && negb brake)
  /\ (brake = true -> HUD.isBraking g = true).
Proof.
  cbv zeta. unfold telemetry. cbv zeta.
  simpl HUD.isAccelerating. simpl HUD.isBoosting. simpl HUD.isBraking.
  unfold inputAcceleration, inputThrottle. cbv zeta.
  destruct (keys "keys"%string || keys "arrowdown"%string);
    destruct (keys "keyw"%string || keys "arrowup"%string);
    destruct (inputBoost keys); simpl;
    repeat split; intros;
    rewrite ?Rgtb_true, ?Rltb_false, ?Rgtb_false by lra; try reflexivity; try discriminate;
    try (replace (Rltb _ 0) with true by (symmetry; apply Rltb_spec; lra); reflexivity).
Qed.

(** * Coasting *)

Lemma coasting_frame (c : Car) (keys : Keys) (dt : R) :
  0 <= handbrakeIntensity c <= 1 -> 0 <= dt ->
  inputThrottle keys = 0 ->
  THREE.length (velocity (animate c keys dt)) <= 0.98 * THREE.length (velocity c).
Proof.
  intros Hh Hdt Ht.
  pose proof (handbrakeAfter_range c keys dt Hh Hdt) as Hr.
  pose proof (length_nonneg (velocity c)) as Hp.
  assert (Hd : THREE.length (drivenVelocity c keys dt) <= 0.98 * THREE.length (velocity c)).
  { unfold drivenVelocity. cbv zeta.
    rewrite (inputAcceleration_coasting keys Ht), Reqb_true by reflexivity.
    assert (Hdrag : THREE.length (THREE.multiplyScalar (velocity c) 0.98)
                    = 0.98 * THREE.length (velocity c))
      by (rewrite length_multiplyScalar, Rabs_right by lra; reflexivity).
    destruct (index maxSpeedByGear (gear c)) as [m|] eqn:Hm; [|lra].
    destruct (Rgtb _ m) eqn:Hcap; [|lra].
    apply Rgtb_spec in Hcap. apply index_maxSpeedByGear_nonneg in Hm.
    rewrite length_multiplyScalar, length_normalize, Rabs_right by lra. lra. }
  pose proof (length_nonneg (drivenVelocity c keys dt)) as Hq.
  rewrite animate_velocity. destruct (Rgtb _ 0); [|exact Hd].
  rewrite length_multiplyScalar, Rabs_right by lra. nra.
Qed.

(** X25: without throttle the car slows down geometrically: over frames with
    no throttle or brake key down and [deltaTime >= 0], whatever else is
    held, each frame takes at least 2 per cent off the magnitude of the
    velocity, so after [n] frames at most [0.98 ^ n] of it is left. *)
Theorem coasting_slows_geometrically (inputs : list (Keys * R)) (c : Car) :
  Forall (fun i => inputThrottle (fst i) = 0 /\ 0 <= snd i) inputs ->
  0 <= handbrakeIntensity c <= 1 ->
  THREE.length (velocity (drive c inputs))
  <= 0.98 ^ List.length inputs * THREE.length (velocity c).
Proof.
  intros Hin. revert c. induction Hin as [|[k dt] inputs [Hk Hdt] _ IH]; intros c Hh.
  - simpl. lra.
  - simpl in Hk, Hdt.
    change (drive c ((k, dt) :: inputs)) with (drive (animate c k dt) inputs).
    assert (Hh' : 0 <= handbrakeIntensity (animate c k dt) <= 1)
      by (rewrite animate_handbrakeIntensity; now apply handbrakeAfter_range).
    specialize (IH _ Hh').
    pose proof (coasting_frame c k dt Hh Hdt Hk) as Hstep.
    assert (Hpow : 0 <= 0.98 ^ List.length inputs) by (apply pow_le; lra).
    simpl List.length. simpl pow.
    apply Rle_trans with (1 := IH).
    replace (0.98 * 0.98 ^ List.length inputs * THREE.length (velocity c))
      with (0.98 ^ List.length inputs * (0.98 * THREE.length (velocity c))) by ring.
    now apply Rmult_le_compat_l.
Qed.

Lemma coasting_slows_geometrically_witness :
  let c := mkCar (THREE.mkVector3 188 0.5 0) (THREE.mkEuler 0 0 0) (THREE.mkVector3 3 0 4)
                 (THREE.mkVector3 0 0 0) 12.5 1 TPP 0 0.5 in
  let inputs := [(noKeys, 1 / 60); (setKey noKeys "space" true, 1 / 30)] in
  (Forall (fun i => inputThrottle (fst i) = 0 /\ 0 <= snd i) inputs
   /\ 0 <= handbrakeIntensity c <= 1)
  /\ THREE.length (velocity (drive c inputs))
     <= 0.98 ^ List.length inputs * THREE.length (velocity c).
Proof.
  cbv zeta.
  assert (Hin : Forall (fun i : Keys * R => inputThrottle (fst i) = 0 /\ 0 <= snd i)
                  [(noKeys, 1 / 60); (setKey noKeys "space" true, 1 / 30)]).
  { repeat constructor; simpl; try lra; reflexivity. }
  assert (Hh : 0 <= 0.5 <= 1) by lra.
  split; [split; [exact Hin|simpl; lra]|].
  exact (coasting_slows_geometrically _
           (mkCar (THREE.mkVector3 188 0.5 0) (THREE.mkEuler 0 0 0) (THREE.mkVector3 3 0 4)
                  (THREE.mkVector3 0 0 0) 12.5 1 TPP 0 0.5) Hin Hh).
Defined.
